(** * react-sprout: route configuration compiler and loader scheduling

    A shallow embedding of [src/source/utilities/config.js] and
    [src/source/utilities/loaders.js].

    JavaScript values are a small tagged union; objects are association
    lists in insertion order; asynchronous functions are finite programs
    over the operations they suspend on, run against an environment that
    says how every external operation settles. *)

From Stdlib Require Import ZArith Lia.
From stdpp Require Import base option list strings pretty gmap sorting.

Set Warnings "-register-all".
Local Open Scope string_scope.
Local Open Scope list_scope.
Local Open Scope Z_scope.

(** ** JavaScript values *)

(** Function values.  A route author's function is opaque and known by a
    name; the two closures that [config.js] builds are kept symbolically,
    with the variables they capture. *)
Inductive fn : Type :=
| UserFn (name : string)
| ConfigLoader (prefix : string) (level : nat)
| ConfigAction (prefix : string).

(** What the code reads of a fetch [Response]: [ok], the two headers it
    asks for ([headers.get] answers [null] for an absent header), and a token
    that stands for the body. *)
Record response : Type := Response {
  resp_ok : bool;
  resp_content_type : option string;
  resp_content_length : option string;
  resp_body : string
}.

Inductive value : Type :=
| VUndefined
| VNull
| VBool (b : bool)
| VNum (n : Z)
| VStr (s : string)
| VFun (f : fn)
| VObj (props : list (string * value))
| VResponse (r : response)
| VPromise (p : nat)
| VTypeError (message : string).

(** [ToBoolean] *)
Definition truthy (v : value) : bool :=
  match v with
  | VUndefined | VNull => false
  | VBool b => b
  | VNum n => negb (Z.eqb n 0)
  | VStr s => negb (String.eqb s "")
  | _ => true
  end.

(** [v === true] *)
Definition is_true (v : value) : bool :=
  match v with VBool true => true | _ => false end.

(** [typeof v === 'function'] *)
Definition is_function (v : value) : bool :=
  match v with VFun _ => true | _ => false end.

(** [o[key]] on an object literal: the first binding of [key], and
    [undefined] when there is none. *)
Fixpoint get_prop (key : string) (props : list (string * value)) : value :=
  match props with
  | [] => VUndefined
  | (k, v) :: rest => if String.eqb k key then v else get_prop key rest
  end.

(** ** Completions: a value, or a thrown exception *)

Inductive completion (E A : Type) : Type :=
| Normal (a : A)
| Throw (e : E).
Arguments Normal {E A} a.
Arguments Throw {E A} e.

(** ** Asynchronous functions

    An [async function] is the finite tree of what it does between its
    suspension points: it returns, throws, or performs one external
    operation and goes on with the result.  The code has no [try] around
    an operation, so an operation that throws or rejects ends the function
    with that rejection. *)

Module Async.

(** What [new URL(...)] gives, as far as the code reads it. *)
Record url : Type := URL {
  pathname : string;
  search : string
}.

(** The second argument of [fetch]. *)
Record fetchInit : Type := FetchInit {
  init_method : option string;
  init_body : option value;
  init_headers : list (string * string)
}.

Inductive prog (A : Type) : Type :=
| Return (a : A)
| Raise (e : value)
| Await (v : value) (k : value -> prog A)
| Call (f : string) (argument : value) (k : value -> prog A)
| NewURL (input : value) (k : url -> prog A)
| Fetch (input : string) (init : fetchInit) (k : response -> prog A)
| Json (r : response) (k : value -> prog A)
| TextOf (r : response) (k : value -> prog A)
| CreateData (r : response) (k : value -> prog A).
Arguments Return {A} a.
Arguments Raise {A} e.
Arguments Await {A} v k.
Arguments Call {A} f argument k.
Arguments NewURL {A} input k.
Arguments Fetch {A} input init k.
Arguments Json {A} r k.
Arguments TextOf {A} r k.
Arguments CreateData {A} r k.

Fixpoint bindp {A B} (p : prog A) (f : A -> prog B) : prog B :=
  match p with
  | Return a => f a
  | Raise e => Raise e
  | Await v k => Await v (fun x => bindp (k x) f)
  | Call g argument k => Call g argument (fun x => bindp (k x) f)
  | NewURL input k => NewURL input (fun x => bindp (k x) f)
  | Fetch input init k => Fetch input init (fun x => bindp (k x) f)
  | Json r k => Json r (fun x => bindp (k x) f)
  | TextOf r k => TextOf r (fun x => bindp (k x) f)
  | CreateData r k => CreateData r (fun x => bindp (k x) f)
  end.

(** The operations a run performs, in the order it performs them. *)
Inductive event : Type :=
| EvAwait (v : value)
| EvCall (f : string) (argument : value)
| EvNewURL (input : value)
| EvFetch (input : string) (init : fetchInit)
| EvJson (r : response)
| EvTextOf (r : response)
| EvCreateData (r : response).

(** How an operation settles: [Normal] for a result or a fulfilled
    promise, [Throw] for an exception or a rejection. *)
Definition outcome (A : Type) : Type := completion value A.

(** The world outside the function: how each promise, each call of an
    author's function ([await f(argument)]), each URL, request and body
    settles. [createData] is the function of [response.js]. *)
Record env : Type := Env {
  promiseOutcome : nat -> outcome value;
  callOutcome : string -> value -> outcome value;
  newURL : value -> outcome url;
  fetch : string -> fetchInit -> outcome response;
  json : response -> outcome value;
  text : response -> outcome value;
  createData : response -> outcome value
}.

(** [await v]: a promise gives what it settles to, any other value
    itself. *)
Definition settle (w : env) (v : value) : outcome value :=
  match v with
  | VPromise p => promiseOutcome w p
  | _ => Normal v
  end.

Definition step {A B} (ev : event) (o : outcome A) (rest : A -> list event * outcome B)
  : list event * outcome B :=
  match o with
  | Normal a => let (trace, result) := rest a in (ev :: trace, result)
  | Throw e => ([ev], Throw e)
  end.

(** The trace of a run and how the function's promise settles. *)
Fixpoint run {A} (w : env) (p : prog A) : list event * outcome A :=
  match p with
  | Return a => ([], Normal a)
  | Raise e => ([], Throw e)
  | Await v k => step (EvAwait v) (settle w v) (fun x => run w (k x))
  | Call f argument k => step (EvCall f argument) (callOutcome w f argument) (fun x => run w (k x))
  | NewURL input k => step (EvNewURL input) (newURL w input) (fun x => run w (k x))
  | Fetch input init k => step (EvFetch input init) (fetch w input init) (fun x => run w (k x))
  | Json r k => step (EvJson r) (json w r) (fun x => run w (k x))
  | TextOf r k => step (EvTextOf r) (text w r) (fun x => run w (k x))
  | CreateData r k => step (EvCreateData r) (createData w r) (fun x => run w (k x))
  end.

(** Reading a property: of an object literal its binding, of anything
    else the model keeps no properties. *)
Definition property (key : string) (v : value) : value :=
  match v with
  | VObj props => get_prop key props
  | _ => VUndefined
  end.

(** [undefined] and [null] have no properties to read or destructure. *)
Definition nullish (v : value) : bool :=
  match v with
  | VUndefined | VNull => true
  | _ => false
  end.

(** [haystack.includes(needle)] *)
Fixpoint includes (needle haystack : string) : bool :=
  String.prefix needle haystack ||
  match haystack with
  | EmptyString => false
  | String _ rest => includes needle rest
  end.

(** *** Facts about runs *)

Section RunFacts.

Lemma run_step {A B} (ev : event) (o : outcome A) (rest : A -> list event * outcome B) :
  step ev o rest =
  match o with
  | Normal a => (ev :: fst (rest a), snd (rest a))
  | Throw e => ([ev], Throw e)
  end.
Proof.
  destruct o as [a|e]; simpl; [|reflexivity].
  destruct (rest a); reflexivity.
Qed.

(** A run of [bindp p f] is the run of [p] followed, when [p] returns, by
    the run of [f] on what it returned. *)
Lemma run_bindp {A B} (w : env) (p : prog A) (f : A -> prog B) :
  run w (bindp p f) =
  match snd (run w p) with
  | Normal a => (fst (run w p) ++ fst (run w (f a)), snd (run w (f a)))
  | Throw e => (fst (run w p), Throw e)
  end.
Proof.
  induction p as [a|e|v k IH|g arg k IH|input k IH|input init k IH|r k IH|r k IH|r k IH];
    simpl; try (destruct (run w (f a)); reflexivity); try reflexivity;
    rewrite !run_step;
    match goal with |- context [match ?o with Normal _ => _ | Throw _ => _ end] =>
      destruct o as [x|e]; simpl; [rewrite IH; destruct (snd (run w (k x))); reflexivity|reflexivity]
    end.
Qed.

End RunFacts.

End Async.

(** * The configuration compiler ([config.js]) *)

Module Config.

(** ** Raw route elements *)

(** [element.type]: the [Redirect] component or any other component. *)
Inductive component : Type :=
| Redirect
| Component (name : string).

Definition is_Redirect (c : component) : bool :=
  match c with Redirect => true | Component _ => false end.

(** [props.children] as React hands it over: absent ([None]), one node,
    or an array of nodes. *)
Inductive children_of (E : Type) : Type :=
| Single (child : E)
| Many (array : list E).
Arguments Single {E}.
Arguments Many {E}.

(** [element.props] as [createConfigs] destructures it. *)
Record props_of (E : Type) : Type := Props {
  path : option string;
  root : value;
  to : value;
  status : value;
  loader : value;
  action : value;
  children : option (children_of E)
}.
Arguments Props {E}.
Arguments path {E}.
Arguments root {E}.
Arguments to {E}.
Arguments status {E}.
Arguments loader {E}.
Arguments action {E}.
Arguments children {E}.

(** A child of the router is a text node (a JavaScript string) or a React
    element with a type and props. *)
Inductive element : Type :=
| Text (s : string)
| Element (type : component) (props : props_of element).

Abbreviation props := (props_of element).

(** Modelled from the spec: [childrenToArray] of [children.js], which is not
    among the sources.  The spec only says that a level consists of the
    children handed to it: an absent prop gives the empty array, one node
    the array of that node, and an array is taken as it is. *)
Definition childrenToArray (c : option (children_of element)) : list element :=
  match c with
  | None => []
  | Some (Single child) => [child]
  | Some (Many array) => array
  end.

(** [if (children)] on the raw prop: an absent prop and the empty string
    are falsy; an element, a non-empty string and every array are truthy. *)
Definition children_truthy (c : option (children_of element)) : bool :=
  match c with
  | None => false
  | Some (Single (Text s)) => negb (String.eqb s "")
  | Some (Single (Element _ _)) => true
  | Some (Many _) => true
  end.

(** ** Compiled route configs *)

(** The two object shapes that the callback of [sortedElements.map]
    returns. [children] is [undefined] ([None]) for a childless element. *)
Inductive config : Type :=
| RedirectConfig (type : component) (path : option string) (to status action : value)
| DefaultConfig (type : component) (path : option string)
    (root status loader action : value) (children : option (list config)).

(** Reading a property of a compiled config; a property that the object
    does not have reads as [undefined]. *)
Definition typeOf (c : config) : component :=
  match c with
  | RedirectConfig type _ _ _ _ => type
  | DefaultConfig type _ _ _ _ _ _ => type
  end.

Definition pathOf (c : config) : option string :=
  match c with
  | RedirectConfig _ path _ _ _ => path
  | DefaultConfig _ path _ _ _ _ _ => path
  end.

Definition loaderOf (c : config) : value :=
  match c with
  | RedirectConfig _ _ _ _ _ => VUndefined
  | DefaultConfig _ _ _ _ loader _ _ => loader
  end.

Definition actionOf (c : config) : value :=
  match c with
  | RedirectConfig _ _ _ _ action => action
  | DefaultConfig _ _ _ _ _ action _ => action
  end.

Definition childrenOfConfig (c : config) : option (list config) :=
  match c with
  | RedirectConfig _ _ _ _ _ => None
  | DefaultConfig _ _ _ _ _ _ children => children
  end.

(** ** Errors and warnings *)

Inductive exn : Type :=
| RouterConfigError (message : string)
| TypeError (message : string).

(** [error instanceof RouterConfigError] *)
Definition is_RouterConfigError (e : exn) : bool :=
  match e with RouterConfigError _ => true | TypeError _ => false end.

(** One call on a warning channel: [console.warn(message)] or
    [configConsole.warn(message, rootElement, elements)]. *)
Inductive warning : Type :=
| ConsoleWarn (message : string)
| ConfigWarn (message : string) (rootElement : option element) (elements : list element).

Definition noRoutesMessage : string :=
  "No routes are specified. The router will not render anything.".
Definition duplicateMessage : string :=
  "There are two routes which will match the same url. The second route will never render.".
Definition redirectLoaderMessage : string :=
  "There is a Redirect route with a loader. Redirect routes should not load data as they will not render. Please remove the loader to fix this.".
Definition redirectChildrenMessage : string :=
  "There is a Redirect route with child routes. Redirect routes should not have child routes. Please remove the child routes to fix this.".
Definition rootMessage : string :=
  "There is a root route without child routes. Please remove the root property to fix this.".

Definition quote : string := String (Ascii.ascii_of_nat 34) "".

Definition textNodeMessage (text : string) : string :=
  "There is a text node " +:+ quote +:+ text +:+ quote +:+
  " in the children of your <Router>. Routes need to be specified by react elements. Please remove this text node to fix this.".
Definition hashMessage (hash : string) : string :=
  "There is a route with a hash " +:+ quote +:+ "#" +:+ hash +:+ quote +:+
  ". Hashes should not be used in your route paths. Please remove the hash " +:+
  quote +:+ "#" +:+ hash +:+ quote +:+ " to fix this.".

(** ** The element assertions *)

Definition assertion := completion exn unit.

Definition passed : assertion := Normal tt.

(** Sequencing of statements that may throw. *)
Definition andThen (a b : assertion) : assertion :=
  match a with
  | Normal _ => b
  | Throw e => Throw e
  end.

Definition assertElementIsNotTextNode (element : element) : assertion :=
  match element with
  | Text s => Throw (RouterConfigError (textNodeMessage s))
  | Element _ _ => passed
  end.

(** The four checks below read [element.type] and [element.props]; on a
    string both are [undefined] and reading a prop of [undefined] throws. *)
Definition notAnElement : exn :=
  TypeError "Cannot read properties of undefined".

Definition assertElementRedirectHasNoLoader (element : element) : assertion :=
  match element with
  | Text _ => Throw notAnElement
  | Element type props =>
      if truthy (loader props) && is_Redirect type
      then Throw (RouterConfigError redirectLoaderMessage)
      else passed
  end.

Definition assertElementRedirictHasNoChildren (element : element) : assertion :=
  match element with
  | Text _ => Throw notAnElement
  | Element type props =>
      if children_truthy (children props) && is_Redirect type
      then Throw (RouterConfigError redirectChildrenMessage)
      else passed
  end.

Definition assertElementWithoutChildrenIsNotRoot (element : element) : assertion :=
  match element with
  | Text _ => Throw notAnElement
  | Element type props =>
      if children_truthy (children props) && truthy (root props)
      then Throw (RouterConfigError rootMessage)
      else passed
  end.

(** ** The built-in loader and action *)

Section Builtin.

Import Async.

(** [ToNumber(s) > 0] for a header string [s]: the language's conversion
    of a string to a number is a parameter. *)
Variable stringIsPositive : string -> bool.

(** [contentLength > 0]; an absent header is [null], which converts to 0. *)
Definition contentLengthPositive (contentLength : option string) : bool :=
  match contentLength with
  | None => false
  | Some s => stringIsPositive s
  end.

(** [contentType?.includes('application/json')] *)
Definition isJson (contentType : option string) : bool :=
  match contentType with
  | None => false
  | Some s => includes "application/json" s
  end.

(** The body common to both closures, from the response on. *)
Definition decodeResponse (response : response) : prog value :=
  let contentType := resp_content_type response in
  let contentLength := resp_content_length response in
  (if contentLengthPositive contentLength && isJson contentType
   then Json response
   else TextOf response)
  (fun result =>
     if resp_ok response then Return result else Raise (VResponse response)).

Definition destructureError : value :=
  VTypeError "Cannot destructure property 'request' of 'undefined' as it is undefined.".
Definition readUrlError : value :=
  VTypeError "Cannot read properties of undefined (reading 'url')".

(** The closure [async function loader({ request })] applied to its
    argument. *)
Definition createConfigLoader (prefix : string) (level : nat) (argument : value) : prog value :=
  if nullish argument then Raise destructureError else
  let request := property "request" argument in
  if nullish request then Raise readUrlError else
  NewURL (property "url" request) (fun url =>
  Fetch (prefix +:+ pathname url +:+ search url)
    {| init_method := None;
       init_body := None;
       init_headers := [("Accept", "application/json"); ("Range", "route=" +:+ pretty level)] |}
    decodeResponse).

(** The closure [async function action({ request })] applied to its
    argument. *)
Definition createConfigAction (prefix : string) (argument : value) : prog value :=
  if nullish argument then Raise destructureError else
  let request := property "request" argument in
  if nullish request then Raise readUrlError else
  NewURL (property "url" request) (fun url =>
  Fetch (prefix +:+ pathname url +:+ search url)
    {| init_method := Some "POST";
       init_body := Some (property "body" request);
       init_headers := [("Accept", "application/json")] |}
    decodeResponse).

(** A call [f(argument)] of a function value, awaited. *)
Definition callFunction (f : fn) (argument : value) : prog value :=
  match f with
  | UserFn name => Call name argument Return
  | ConfigLoader prefix level => createConfigLoader prefix level argument
  | ConfigAction prefix => createConfigAction prefix argument
  end.

(** *** Facts about the built-in loader *)


(** *** What [includes] finds *)



(** *** When the body is read as JSON *)




(** *** More about the built-in closures *)

(** What both closures do from [new URL] on, for any [init]. *)
Lemma run_request (w : env) (input : value) (target : url -> string) (init : url -> fetchInit) :
  run w (NewURL input (fun url => Fetch (target url) (init url) decodeResponse)) =
  match newURL w input with
  | Throw e => ([EvNewURL input], Throw e)
  | Normal u =>
      match fetch w (target u) (init u) with
      | Throw e => ([EvNewURL input; EvFetch (target u) (init u)], Throw e)
      | Normal response =>
          let asJson :=
            contentLengthPositive (resp_content_length response) &&
            isJson (resp_content_type response) in
          match (if asJson then json w response else text w response) with
          | Throw e =>
              ([EvNewURL input; EvFetch (target u) (init u);
                if asJson then EvJson response else EvTextOf response],
               Throw e)
          | Normal body =>
              ([EvNewURL input; EvFetch (target u) (init u);
                if asJson then EvJson response else EvTextOf response],
               if resp_ok response then Normal body else Throw (VResponse response))
          end
      end
  end.
Proof.
  cbn [run]. rewrite run_step. destruct (newURL w input) as [u|e]; [|reflexivity].
  cbn [run fst snd]. rewrite run_step.
  destruct (fetch w (target u) (init u)) as [response|e]; [|reflexivity].
  unfold decodeResponse. cbn zeta.
  destruct (contentLengthPositive (resp_content_length response) &&
            isJson (resp_content_type response));
    cbn [run fst snd]; rewrite run_step.
  - destruct (json w response) as [body|e]; [|reflexivity].
    destruct (resp_ok response); reflexivity.
  - destruct (text w response) as [body|e]; [|reflexivity].
    destruct (resp_ok response); reflexivity.
Qed.


(** X10. A failure of the built-in loader's own steps is what the loader
    rejects with, and ends it: a URL that does not parse sends no request,
    a request that fails reads no body, and a body that cannot be read
    rejects with the reading error whether or not the response is [ok]. *)
Theorem builtin_loader_failures (w : env) (prefix : string) (level : nat)
    (context : list (string * value)) :
  let request := get_prop "request" context in
  let input := fun u => prefix +:+ pathname u +:+ search u in
  let init :=
    {| init_method := None;
       init_body := None;
       init_headers := [("Accept", "application/json"); ("Range", "route=" +:+ pretty level)] |} in
  let asJson := fun response =>
    contentLengthPositive (resp_content_length response) &&
    isJson (resp_content_type response) in
  nullish request = false ->
  (forall e,
     newURL w (property "url" request) = Throw e ->
     run w (createConfigLoader prefix level (VObj context)) =
       ([EvNewURL (property "url" request)], Throw e)) /\
  (forall u e,
     newURL w (property "url" request) = Normal u ->
     fetch w (input u) init = Throw e ->
     run w (createConfigLoader prefix level (VObj context)) =
       ([EvNewURL (property "url" request); EvFetch (input u) init], Throw e)) /\
  (forall u response e,
     newURL w (property "url" request) = Normal u ->
     fetch w (input u) init = Normal response ->
     (if asJson response then json w response else text w response) = Throw e ->
     run w (createConfigLoader prefix level (VObj context)) =
       ([EvNewURL (property "url" request); EvFetch (input u) init;
         if asJson response then EvJson response else EvTextOf response],
        Throw e)).
Proof.
  intros request input init asJson Hrequest.
  assert (Hrun : run w (createConfigLoader prefix level (VObj context)) =
                 run w (NewURL (property "url" request)
                          (fun url => Fetch (input url) init decodeResponse))).
  { unfold createConfigLoader. cbn [nullish property]. fold request. rewrite Hrequest. reflexivity. }
  rewrite Hrun, (run_request w (property "url" request) input (fun _ => init)).
  repeat split.
  - intros e ->. reflexivity.
  - intros u e -> ->. reflexivity.
  - intros u response e -> ->. cbn zeta. fold (asJson response). intros ->. reflexivity.
Qed.

(** X11. Called with an argument that has no [request] (or with no argument),
    either closure throws before it does anything: no URL is parsed and no
    request is sent. *)
Theorem builtin_closures_need_request (w : env) (prefix : string) (level : nat) (argument : value) :
  nullish (property "request" argument) = true ->
  (exists message,
     run w (createConfigLoader prefix level argument) = ([], Throw (VTypeError message))) /\
  (exists message,
     run w (createConfigAction prefix argument) = ([], Throw (VTypeError message))).
Proof.
  intros Hrequest. unfold createConfigLoader, createConfigAction.
  destruct (nullish argument); [split; eexists; reflexivity|].
  rewrite Hrequest. split; eexists; reflexivity.
Qed.

End Builtin.

Section Compiler.

(** *** What [config.js] imports

    [path.js], [descriptor.js] are not among the sources: their functions
    are parameters of the development. *)
Variable resolvePaths : string -> option string -> string.
Variable joinPaths : string -> string -> string.
(** [pathParts(path)]: an array, of which the code reads index 2. *)
Variable pathParts : string -> list string.
Variable structure : Type.
Variable descriptorStructure : string -> structure.
Variable equivalentDescriptors : structure -> structure -> bool.
Variable descriptorScore : option string -> Z.

(** *** What every object inherits

    [scores] in [sortElementsByDescriptorScore] is an object literal: a
    read [scores[key]] finds, besides the scores written to it, the
    properties of [Object.prototype] ([constructor], [toString],
    [__proto__], ...).  [objectPrototype key] is, for the name of such a
    property, the string that its value converts to under [<] and [>] (the
    source text of a function, [[object Object]] for an object), and [None]
    for any other key.  These values are functions and objects: none is
    [undefined] or [null], and none of the strings is a numeral. *)
Variable objectPrototype : string -> option string.

(** [import.meta.env.DEV] *)
Variable DEV : bool.

Definition assertElementPathHasNoHash (element : element) : assertion :=
  match element with
  | Text _ => Throw notAnElement
  | Element type props =>
      match path props with
      | None => passed
      | Some p =>
          match pathParts p !! 2%nat with
          | Some hash =>
              if negb (String.eqb hash "")
              then Throw (RouterConfigError (hashMessage hash))
              else passed
          | None => passed
          end
      end
  end.

Definition assertNoElementErrors (element : element) : assertion :=
  assertElementIsNotTextNode element.

Definition assertNoElementWarnings (element : element) : assertion :=
  andThen (assertElementPathHasNoHash element)
  (andThen (assertElementRedirectHasNoLoader element)
  (andThen (assertElementRedirictHasNoChildren element)
           (assertElementWithoutChildrenIsNotRoot element))).

(** ** The compiler's state and its monad

    [createConfig] owns one array [duplicates], shared by every level of
    the recursion, and writes to the warning channels.  A computation takes
    the state and gives its completion with the state it leaves; a throw
    keeps the warnings written before it. *)

Record state : Type := State {
  duplicates : list (element * structure);
  warnings : list warning
}.

Definition M (A : Type) : Type := state -> completion exn A * state.

Definition ret {A} (a : A) : M A := fun s => (Normal a, s).

Definition throw {A} (e : exn) : M A := fun s => (Throw e, s).

Definition bind {A B} (m : M A) (k : A -> M B) : M B :=
  fun s =>
    match m s with
    | (Normal a, s') => k a s'
    | (Throw e, s') => (Throw e, s')
    end.

Notation "x <- m ;; k" := (bind m (fun x => k))
  (at level 100, m at next level, right associativity).
Notation "m ;;; k" := (bind m (fun _ => k))
  (at level 100, right associativity).

Definition warn (w : warning) : M unit :=
  fun s => (Normal tt, State (duplicates s) (warnings s ++ [w])).

(** [duplicates.push(entry)] *)
Definition pushDuplicate (entry : element * structure) : M unit :=
  fun s => (Normal tt, State (duplicates s ++ [entry]) (warnings s)).

Definition getDuplicates : M (list (element * structure)) :=
  fun s => (Normal (duplicates s), s).

(** [Array.prototype.filter], [forEach] and [map] with a callback that
    writes to the state and may throw. *)
Fixpoint filterM {A} (f : A -> M bool) (l : list A) : M (list A) :=
  match l with
  | [] => ret []
  | x :: rest =>
      keep <- f x ;;
      kept <- filterM f rest ;;
      ret (if keep then x :: kept else kept)
  end.

Fixpoint forEachM {A B} (f : A -> M B) (l : list A) : M unit :=
  match l with
  | [] => ret tt
  | x :: rest => f x ;;; forEachM f rest
  end.

Fixpoint mapM {A B} (f : A -> M B) (l : list A) : M (list B) :=
  match l with
  | [] => ret []
  | x :: rest =>
      y <- f x ;;
      ys <- mapM f rest ;;
      ret (y :: ys)
  end.

(** ** [sortElementsByDescriptorScore] *)

(** [element.props.path]; the sort only ever sees elements that passed
    [verifyNoElementErrors], none of which is a text node. *)
Definition elementPath (element : element) : option string :=
  match element with
  | Text _ => None
  | Element _ props => path props
  end.

(** The property key of [scores[path]]: an absent path is the key
    ["undefined"]. *)
Definition pathKey (path : option string) : string :=
  match path with
  | None => "undefined"
  | Some p => p
  end.

(** What a read [scores[key]] gives: a score written by the loop, or the
    value of an inherited property, known by the string it converts to;
    [None] is [undefined]. *)
Inductive scoreEntry : Type :=
| Recorded (score : Z)
| Inherited (text : string).

Definition readScore (scores : gmap string Z) (path : option string) : option scoreEntry :=
  match scores !! pathKey path with
  | Some score => Some (Recorded score)
  | None => Inherited <$> objectPrototype (pathKey path)
  end.

(** One turn of the [for] loop that fills [scores]: the score is written
    when [scores[path] == undefined], which an inherited property
    prevents. *)
Definition recordScore (scores : gmap string Z) (path : option string) : gmap string Z :=
  match readScore scores path with
  | None => <[pathKey path := descriptorScore path]> scores
  | Some _ => scores
  end.

Definition buildScores (paths : list (option string)) : gmap string Z :=
  fold_left recordScore paths ∅.

(** [x < y] on what [scores] holds: two numbers compare as numbers; two
    inherited values are converted to strings and compare as strings; a
    number and an inherited value compare as numbers after the string
    became [NaN], and a comparison with [NaN] or with [undefined] is
    false. *)
Definition lessThan (x y : option scoreEntry) : bool :=
  match x, y with
  | Some (Recorded a), Some (Recorded b) => a <? b
  | Some (Inherited s), Some (Inherited t) => String.ltb s t
  | _, _ => false
  end.

(** The comparator handed to [elements.sort]; [x > y] is [y < x]. *)
Definition compareScores (scores : gmap string Z) (a b : option string) : Z :=
  if lessThan (readScore scores a) (readScore scores b) then 1
  else if lessThan (readScore scores b) (readScore scores a) then -1
  else 0.

(** [Array.prototype.sort] is stable, and with a comparator that compares
    numbers read from a table its result is the one stable arrangement.
    Inserting from the right computes it: an element goes in front of the
    first one it may not come after.  Where a path names an inherited
    property the comparator answers 0 against every recorded score; among
    three or more elements it is then not a consistent comparator, for
    which the language leaves the order to the implementation: what is
    proved below about the order of a level is proved for sets without
    such a path, and for two siblings. *)
Fixpoint insertSorted {A} (cmp : A -> A -> Z) (x : A) (l : list A) : list A :=
  match l with
  | [] => [x]
  | y :: rest => if cmp x y <=? 0 then x :: y :: rest else y :: insertSorted cmp x rest
  end.

Fixpoint arraySort {A} (cmp : A -> A -> Z) (l : list A) : list A :=
  match l with
  | [] => []
  | x :: rest => insertSorted cmp x (arraySort cmp rest)
  end.

(** The sort, over any array whose entries carry an element. *)
Definition sortByDescriptorScore {A} (elem : A -> element) (entries : list A) : list A :=
  let scores := buildScores (map (fun a => elementPath (elem a)) entries) in
  arraySort (fun a b => compareScores scores (elementPath (elem a)) (elementPath (elem b))) entries.

Definition sortElementsByDescriptorScore (elements : list element) : list element :=
  sortByDescriptorScore (fun e => e) elements.

(** ** [createConfig] *)

Section CreateConfig.

Variable rootElement : option element.
Variable prefix : string.

Definition errorMessage (e : exn) : string :=
  match e with
  | RouterConfigError message => message
  | TypeError message => message
  end.

Definition verifyNoElementErrors (element : element) : M bool :=
  match assertNoElementErrors element with
  | Normal _ => ret true
  | Throw error =>
      if DEV && is_RouterConfigError error
      then warn (ConfigWarn (errorMessage error) rootElement [element]) ;;; ret false
      else throw error
  end.

Definition verifyNoElementWarnings (element : element) : M bool :=
  match assertNoElementWarnings element with
  | Normal _ => ret true
  | Throw error =>
      if DEV && is_RouterConfigError error
      then warn (ConfigWarn (errorMessage error) rootElement [element]) ;;; ret false
      else throw error
  end.

(** The [else] branch of the callback: a childless element registers its
    descriptor among those seen so far. *)
Definition registerLeaf (element : element) (path : option string) (childBase : string) : M unit :=
  let descriptorPath :=
    match path with
    | None => joinPaths childBase "*"
    | Some _ => childBase
    end in
  let structure := descriptorStructure descriptorPath in
  seen <- getDuplicates ;;
  match find (fun duplicate => equivalentDescriptors (snd duplicate) structure) seen with
  | Some duplicate =>
      if DEV
      then warn (ConfigWarn duplicateMessage rootElement [fst duplicate; element])
      else pushDuplicate (element, structure)
  | None => pushDuplicate (element, structure)
  end.

(** The body of [createConfigs] over entries that carry, next to each
    element, the callback of [sortedElements.map] for it.  [elements.sort]
    sorts [validElements] in place and returns it, so [forEach] walks the
    sorted array. *)
Definition createConfigsFrom (entries : list (element * (string -> nat -> M config)))
    (base : string) (level : nat) : M (list config) :=
  validElements <- filterM (fun entry => verifyNoElementErrors (fst entry)) entries ;;
  let sortedElements := sortByDescriptorScore fst validElements in
  forEachM (fun entry => verifyNoElementWarnings (fst entry)) sortedElements ;;;
  mapM (fun entry => snd entry base level) sortedElements.

(** The callback of [sortedElements.map].  The recursion of the source goes
    through [createConfigs] on the children; here the callback of every
    child is attached to the child before the level is filtered and
    sorted, which keeps the recursion structural ([createConfigs_unfold] and
    [elementConfig_unfold] below give the equations of the source). *)
Fixpoint elementConfig (element : element) : string -> nat -> M config :=
  match element with
  | Text _ => fun _ _ => throw notAnElement
  | Element type props => fun base level =>
      let action := if is_true (action props) then VFun (ConfigAction prefix) else action props in
      let loader := if is_true (loader props) then VFun (ConfigLoader prefix level) else loader props in
      let childBase := resolvePaths base (path props) in
      let childrenArray :=
        match children props with
        | None => []
        | Some (Single child) => [(child, elementConfig child)]
        | Some (Many array) => map (fun child => (child, elementConfig child)) array
        end in
      childConfigs <-
        (match childrenArray with
         | _ :: _ =>
             configs <- createConfigsFrom childrenArray childBase (level + 1) ;;
             ret (Some configs)
         | [] =>
             registerLeaf element (path props) childBase ;;;
             ret None
         end) ;;
      ret (if is_Redirect type
           then RedirectConfig type (path props) (to props) (status props) action
           else DefaultConfig type (path props) (root props) (status props) loader action childConfigs)
  end.

Definition createConfigs (elements : list element) (base : string) (level : nat) : M (list config) :=
  createConfigsFrom (map (fun element => (element, elementConfig element)) elements) base level.

(** ** Facts about the sort *)

Section SortFacts.

Context {A : Type} (cmp : A -> A -> Z) (key : A -> Z).

(** On the entries of [l] the comparator orders by descending [key]. *)
Definition ordersByKey (l : list A) : Prop :=
  forall a b, a ∈ l -> b ∈ l -> (cmp a b <=? 0) = (key b <=? key a).

Lemma insertSorted_Permutation (x : A) (l : list A) :
  insertSorted cmp x l ≡ₚ x :: l.
Proof.
  induction l as [|y rest IH]; cbn; [reflexivity|].
  destruct (cmp x y <=? 0); [reflexivity|].
  rewrite IH. apply Permutation_swap.
Qed.

Lemma arraySort_Permutation (l : list A) : arraySort cmp l ≡ₚ l.
Proof.
  induction l as [|x rest IH]; cbn; [reflexivity|].
  rewrite insertSorted_Permutation, IH. reflexivity.
Qed.

Lemma elem_of_arraySort (a : A) (l : list A) : a ∈ arraySort cmp l <-> a ∈ l.
Proof. rewrite arraySort_Permutation. reflexivity. Qed.

Lemma insertSorted_sorted (x : A) (l : list A) :
  (forall y, y ∈ l -> (cmp x y <=? 0) = (key y <=? key x)) ->
  StronglySorted (fun a b => key b <= key a) l ->
  StronglySorted (fun a b => key b <= key a) (insertSorted cmp x l).
Proof.
  intros Hcmp Hsorted. induction Hsorted as [|y rest Hrest IH Hy]; cbn.
  - repeat constructor.
  - rewrite (Hcmp y) by apply list_elem_of_here.
    destruct (key y <=? key x) eqn:Hle.
    + apply Z.leb_le in Hle. constructor; [constructor; assumption|].
      constructor; [exact Hle|].
      eapply Forall_impl; [exact Hy|]. cbn. intros z Hz. lia.
    + apply Z.leb_gt in Hle. constructor.
      * apply IH. intros z Hz. apply Hcmp. apply list_elem_of_further. exact Hz.
      * rewrite insertSorted_Permutation. constructor; [lia|exact Hy].
Qed.

Lemma arraySort_sorted (l : list A) :
  ordersByKey l ->
  StronglySorted (fun a b => key b <= key a) (arraySort cmp l).
Proof.
  induction l as [|x rest IH]; intros Hcmp; cbn; [constructor|].
  apply insertSorted_sorted.
  - intros y Hy. apply Hcmp; [apply list_elem_of_here|].
    apply list_elem_of_further. apply (proj1 (elem_of_arraySort y rest)). exact Hy.
  - apply IH. intros a b Ha Hb. apply Hcmp; apply list_elem_of_further; assumption.
Qed.

(** Stability: the entries of any one key keep their order. *)
Lemma insertSorted_stable (x : A) (l : list A) (v : Z) :
  (forall y, y ∈ l -> (cmp x y <=? 0) = (key y <=? key x)) ->
  List.filter (fun a => key a =? v) (insertSorted cmp x l) =
  List.filter (fun a => key a =? v) (x :: l).
Proof.
  intros Hcmp. induction l as [|y rest IH]; [reflexivity|].
  cbn [insertSorted]. rewrite (Hcmp y) by apply list_elem_of_here.
  destruct (key y <=? key x) eqn:Hle; [reflexivity|].
  apply Z.leb_gt in Hle.
  cbn [List.filter]. rewrite IH.
  - cbn [List.filter].
    destruct (key x =? v) eqn:Hx, (key y =? v) eqn:Hy; try reflexivity.
    apply Z.eqb_eq in Hx, Hy. lia.
  - intros z Hz. apply Hcmp. apply list_elem_of_further. exact Hz.
Qed.

Lemma arraySort_stable (l : list A) (v : Z) :
  ordersByKey l ->
  List.filter (fun a => key a =? v) (arraySort cmp l) =
  List.filter (fun a => key a =? v) l.
Proof.
  induction l as [|x rest IH]; intros Hcmp; [reflexivity|].
  cbn [arraySort]. rewrite insertSorted_stable.
  - cbn [List.filter]. rewrite IH; [reflexivity|].
    intros a b Ha Hb. apply Hcmp; apply list_elem_of_further; assumption.
  - intros y Hy. apply Hcmp; [apply list_elem_of_here|].
    apply list_elem_of_further. apply (proj1 (elem_of_arraySort y rest)). exact Hy.
Qed.

(** There is one such arrangement: a list sorted by descending key in
    which the entries of every key stand in the order they have in [l] is
    the result of the sort, whatever algorithm produced it. *)
Lemma sorted_stable_unique (l1 l2 : list A) :
  StronglySorted (fun a b => key b <= key a) l1 ->
  StronglySorted (fun a b => key b <= key a) l2 ->
  (forall v, List.filter (fun a => key a =? v) l1 = List.filter (fun a => key a =? v) l2) ->
  l1 = l2.
Proof.
  intros Hs1. revert l2. induction Hs1 as [|x t1 Ht1 IH Hx]; intros l2 Hs2 Hsame.
  - destruct l2 as [|y t2]; [reflexivity|].
    specialize (Hsame (key y)). cbn [List.filter] in Hsame.
    rewrite Z.eqb_refl in Hsame. discriminate.
  - destruct Hs2 as [|y t2 Ht2 Hy].
    { specialize (Hsame (key x)). cbn [List.filter] in Hsame.
      rewrite Z.eqb_refl in Hsame. discriminate. }
    assert (Hyx : key y <= key x).
    { pose proof (Hsame (key y)) as Hv. cbn [List.filter] in Hv.
      rewrite Z.eqb_refl in Hv.
      destruct (key x =? key y) eqn:Hxy; [apply Z.eqb_eq in Hxy; lia|].
      assert (Hin : In y (List.filter (fun a => key a =? key y) t1))
        by (rewrite Hv; left; reflexivity).
      apply filter_In in Hin as [Hin _].
      rewrite Forall_forall in Hx. apply Hx, list_elem_of_In, Hin. }
    assert (Hxy : key x <= key y).
    { pose proof (Hsame (key x)) as Hv. cbn [List.filter] in Hv.
      rewrite Z.eqb_refl in Hv.
      destruct (key y =? key x) eqn:Hyx'; [apply Z.eqb_eq in Hyx'; lia|].
      assert (Hin : In x (List.filter (fun a => key a =? key x) t2))
        by (rewrite <- Hv; left; reflexivity).
      apply filter_In in Hin as [Hin _].
      rewrite Forall_forall in Hy. apply Hy, list_elem_of_In, Hin. }
    assert (Hkey : key x = key y) by lia.
    pose proof (Hsame (key x)) as Hhead. cbn [List.filter] in Hhead.
    rewrite <- Hkey, Z.eqb_refl in Hhead. injection Hhead as <- Htail.
    f_equal. apply IH; [exact Ht2|].
    intros v. specialize (Hsame v). cbn [List.filter] in Hsame.
    destruct (key x =? v) eqn:Hv.
    + apply Z.eqb_eq in Hv. subst v. exact Htail.
    + exact Hsame.
Qed.

Lemma arraySort_unique (l arranged : list A) :
  ordersByKey l ->
  StronglySorted (fun a b => key b <= key a) arranged ->
  (forall v, List.filter (fun a => key a =? v) arranged = List.filter (fun a => key a =? v) l) ->
  arranged = arraySort cmp l.
Proof.
  intros Hcmp Hsorted Hstable. apply sorted_stable_unique; [exact Hsorted| |].
  - apply arraySort_sorted, Hcmp.
  - intros v. rewrite Hstable. symmetry. apply arraySort_stable, Hcmp.
Qed.

End SortFacts.

(** Sorting entries that carry more than the element sorts the elements. *)
Lemma arraySort_map {A B : Type} (h : A -> B) (cmp : B -> B -> Z) (l : list A) :
  arraySort cmp (map h l) = map h (arraySort (fun a b => cmp (h a) (h b)) l).
Proof.
  induction l as [|x rest IH]; [reflexivity|].
  cbn [map arraySort]. rewrite IH.
  generalize (arraySort (fun a b => cmp (h a) (h b)) rest). intros sorted.
  induction sorted as [|y more IHs]; [reflexivity|].
  cbn [map insertSorted]. destruct (cmp (h x) (h y) <=? 0); [reflexivity|].
  cbn [map]. rewrite IHs. reflexivity.
Qed.

(** ** Facts about the table of scores *)

(** No path of the array names a property that every object inherits. *)
Definition plainKeys (paths : list (option string)) : Prop :=
  forall p, p ∈ paths -> objectPrototype (pathKey p) = None.

Lemma readScore_plain (scores : gmap string Z) (p : option string) :
  objectPrototype (pathKey p) = None ->
  readScore scores p = Recorded <$> scores !! pathKey p.
Proof. intros Hplain. unfold readScore. rewrite Hplain. destruct (scores !! pathKey p); reflexivity. Qed.

(** A key that is not inherited, once recorded, keeps its score; not yet
    recorded, it gets the score of the first path of the array that has
    this key. *)
Lemma fold_recordScore_lookup (paths : list (option string)) (init : gmap string Z) (key : string) :
  objectPrototype key = None ->
  fold_left recordScore paths init !! key =
  match init !! key with
  | Some v => Some v
  | None => descriptorScore <$> List.find (fun q => String.eqb (pathKey q) key) paths
  end.
Proof.
  intros Hplain. revert init. induction paths as [|p rest IH]; intros init; cbn [fold_left List.find].
  - destruct (init !! key); reflexivity.
  - rewrite IH. unfold recordScore, readScore.
    destruct (String.eqb (pathKey p) key) eqn:Hkey.
    + apply String.eqb_eq in Hkey. subst key. rewrite Hplain.
      destruct (init !! pathKey p) as [v|] eqn:Hinit; cbn.
      * rewrite Hinit. reflexivity.
      * rewrite lookup_insert_eq. reflexivity.
    + apply String.eqb_neq in Hkey.
      destruct (init !! pathKey p) as [v|] eqn:Hinit; [reflexivity|].
      destruct (objectPrototype (pathKey p)); cbn; [reflexivity|].
      rewrite lookup_insert_ne by exact Hkey. reflexivity.
Qed.

(** No score is ever written under an inherited key. *)
Lemma fold_recordScore_inherited (paths : list (option string)) (init : gmap string Z)
    (key text : string) :
  objectPrototype key = Some text ->
  fold_left recordScore paths init !! key = init !! key.
Proof.
  intros Hinherited. revert init. induction paths as [|p rest IH]; intros init; [reflexivity|].
  cbn [fold_left]. rewrite IH. unfold recordScore, readScore.
  destruct (init !! pathKey p) as [v|] eqn:Hinit; [reflexivity|].
  destruct (objectPrototype (pathKey p)) as [t|] eqn:Hp; cbn; [reflexivity|].
  apply lookup_insert_ne. intros Heq. rewrite Heq, Hinherited in Hp. discriminate.
Qed.

Lemma readScore_inherited (paths : list (option string)) (p : option string) (text : string) :
  objectPrototype (pathKey p) = Some text ->
  readScore (buildScores paths) p = Some (Inherited text).
Proof.
  intros Hinherited. unfold readScore, buildScores.
  rewrite (fold_recordScore_inherited paths ∅ _ text Hinherited), lookup_empty, Hinherited.
  reflexivity.
Qed.

Lemma lessThan_irrefl (x : option scoreEntry) : lessThan x x = false.
Proof.
  destruct x as [[a|t]|]; cbn; [apply Z.ltb_irrefl| |reflexivity].
  unfold String.ltb. pose proof (String.compare_antisym t t) as Hanti.
  destruct (String.compare t t); [reflexivity|discriminate|reflexivity].
Qed.

(** Two paths with one key compare as equal, whatever their scores. *)
Lemma compareScores_same_key (scores : gmap string Z) (p q : option string) :
  pathKey p = pathKey q -> compareScores scores p q = 0.
Proof.
  intros Hkey. unfold compareScores.
  assert (Hread : readScore scores p = readScore scores q)
    by (unfold readScore; rewrite Hkey; reflexivity).
  rewrite Hread, lessThan_irrefl. reflexivity.
Qed.

(** A path with an inherited key compares as equal to every path that
    has none. *)
Lemma compareScores_inherited (paths : list (option string)) (p q : option string) (text : string) :
  objectPrototype (pathKey p) = Some text ->
  objectPrototype (pathKey q) = None ->
  compareScores (buildScores paths) p q = 0 /\ compareScores (buildScores paths) q p = 0.
Proof.
  intros Hp Hq. unfold compareScores.
  rewrite (readScore_inherited paths p text Hp), (readScore_plain _ q Hq).
  destruct (buildScores paths !! pathKey q); split; reflexivity.
Qed.

(** C5 (what the code does). The sort reads its scores through a plain
    object, and keeps in their declared order two siblings between which
    it should decide by score: an element without a path and one with the
    path ["undefined"] share the key under which the score is kept, and
    for a path that names a property every object inherits ([constructor],
    [toString], ...) no score is kept at all.  This holds whatever the
    descriptor scores of the two are. *)
Theorem sort_keeps_declared_order_of_unscored_paths (a b : element) :
  (elementPath a = None -> elementPath b = Some "undefined" ->
   sortElementsByDescriptorScore [a; b] = [a; b] /\
   sortElementsByDescriptorScore [b; a] = [b; a]) /\
  (forall text,
     objectPrototype (pathKey (elementPath b)) = Some text ->
     objectPrototype (pathKey (elementPath a)) = None ->
     sortElementsByDescriptorScore [a; b] = [a; b] /\
     sortElementsByDescriptorScore [b; a] = [b; a]).
Proof.
  split.
  - intros Ha Hb.
    assert (Hkey : pathKey (elementPath a) = pathKey (elementPath b))
      by (rewrite Ha, Hb; reflexivity).
    unfold sortElementsByDescriptorScore, sortByDescriptorScore.
    cbn [map arraySort insertSorted].
    rewrite (compareScores_same_key _ _ _ Hkey), (compareScores_same_key _ _ _ (eq_sym Hkey)).
    split; reflexivity.
  - intros text Hb Ha.
    unfold sortElementsByDescriptorScore, sortByDescriptorScore.
    cbn [map arraySort insertSorted].
    destruct (compareScores_inherited [elementPath a; elementPath b] _ _ text Hb Ha) as [_ ->].
    destruct (compareScores_inherited [elementPath b; elementPath a] _ _ text Hb Ha) as [-> _].
    split; reflexivity.
Qed.

(** The score that the comparator reads for a path. *)
Definition recordedScore (paths : list (option string)) (p : option string) : Z :=
  default 0 (buildScores paths !! pathKey p).

Lemma buildScores_member (paths : list (option string)) (p : option string) :
  objectPrototype (pathKey p) = None ->
  p ∈ paths ->
  exists q, q ∈ paths /\ pathKey q = pathKey p /\
            buildScores paths !! pathKey p = Some (descriptorScore q).
Proof.
  intros Hplain Hin. unfold buildScores.
  rewrite (fold_recordScore_lookup _ _ _ Hplain), lookup_empty.
  destruct (List.find (fun q => String.eqb (pathKey q) (pathKey p)) paths) as [q|] eqn:Hfind.
  - apply find_some in Hfind as [Hq Hkey]. apply String.eqb_eq in Hkey.
    exists q. split; [apply list_elem_of_In; exact Hq|]. split; [exact Hkey|reflexivity].
  - apply list_elem_of_In in Hin.
    pose proof (find_none _ _ Hfind p Hin) as Hno. cbn beta in Hno.
    rewrite String.eqb_refl in Hno. discriminate.
Qed.

(** No two paths of the array share a key without being the same path: the
    array does not hold both an absent path and the path ["undefined"]. *)
Definition unambiguousKeys (paths : list (option string)) : Prop :=
  forall p q, p ∈ paths -> q ∈ paths -> pathKey p = pathKey q -> p = q.

Lemma recordedScore_unambiguous (paths : list (option string)) (p : option string) :
  plainKeys paths -> unambiguousKeys paths -> p ∈ paths ->
  recordedScore paths p = descriptorScore p.
Proof.
  intros Hplain Hkeys Hin. unfold recordedScore.
  destruct (buildScores_member paths p (Hplain p Hin) Hin) as (q & Hq & Hkey & ->).
  rewrite (Hkeys q p Hq Hin Hkey). reflexivity.
Qed.

Section SortByScore.

Context {A : Type} (elem : A -> element) (entries : list A).

Let paths : list (option string) := map (fun a => elementPath (elem a)) entries.
Let score (a : A) : Z := recordedScore paths (elementPath (elem a)).

Lemma compareScores_ordersByKey :
  plainKeys paths ->
  ordersByKey
    (fun a b => compareScores (buildScores paths) (elementPath (elem a)) (elementPath (elem b)))
    score entries.
Proof.
  intros Hplain a b Ha Hb. unfold score, recordedScore, compareScores.
  assert (Hpa : elementPath (elem a) ∈ paths)
    by (apply list_elem_of_fmap; exists a; split; [reflexivity|exact Ha]).
  assert (Hpb : elementPath (elem b) ∈ paths)
    by (apply list_elem_of_fmap; exists b; split; [reflexivity|exact Hb]).
  rewrite (readScore_plain _ _ (Hplain _ Hpa)), (readScore_plain _ _ (Hplain _ Hpb)).
  destruct (buildScores_member _ _ (Hplain _ Hpa) Hpa) as (qa & _ & _ & ->).
  destruct (buildScores_member _ _ (Hplain _ Hpb) Hpb) as (qb & _ & _ & ->).
  cbn [default fmap option_fmap option_map lessThan].
  destruct (descriptorScore qa <? descriptorScore qb) eqn:Hlt.
  - apply Z.ltb_lt in Hlt. symmetry. apply Z.leb_gt. exact Hlt.
  - apply Z.ltb_ge in Hlt.
    destruct (descriptorScore qb <? descriptorScore qa); symmetry; apply Z.leb_le; exact Hlt.
Qed.

Lemma sortByDescriptorScore_Permutation :
  sortByDescriptorScore elem entries ≡ₚ entries.
Proof. apply arraySort_Permutation. Qed.

Lemma sortByDescriptorScore_sorted :
  plainKeys paths ->
  StronglySorted (fun a b => score b <= score a) (sortByDescriptorScore elem entries).
Proof. intros Hplain. apply arraySort_sorted, compareScores_ordersByKey, Hplain. Qed.

Lemma sortByDescriptorScore_stable (v : Z) :
  plainKeys paths ->
  List.filter (fun a => score a =? v) (sortByDescriptorScore elem entries) =
  List.filter (fun a => score a =? v) entries.
Proof. intros Hplain. apply arraySort_stable, compareScores_ordersByKey, Hplain. Qed.

End SortByScore.

Lemma sortByDescriptorScore_entries {B : Type} (g : element -> B) (elements : list element) :
  sortByDescriptorScore fst (map (fun e => (e, g e)) elements) =
  map (fun e => (e, g e)) (sortElementsByDescriptorScore elements).
Proof.
  unfold sortElementsByDescriptorScore, sortByDescriptorScore.
  rewrite map_map. cbn [fst].
  exact (arraySort_map (fun e => (e, g e))
           (fun a b => compareScores (buildScores (map elementPath elements))
                         (elementPath (fst a)) (elementPath (fst b)))
           elements).
Qed.

(** ** The equations of the source *)

Lemma filterM_entries {B : Type} (g : element -> B) (f : element -> M bool)
    (l : list element) (s : state) :
  filterM (fun entry => f (fst entry)) (map (fun e => (e, g e)) l) s =
  (kept <- filterM f l ;; ret (map (fun e => (e, g e)) kept)) s.
Proof.
  revert s. induction l as [|x rest IH]; intros s; [reflexivity|].
  cbn [map filterM fst]. unfold bind, ret in *.
  destruct (f x s) as [[keep|e] s1]; [|reflexivity].
  rewrite IH.
  destruct (filterM f rest s1) as [[kept|e] s2]; [|reflexivity].
  destruct keep; reflexivity.
Qed.

Lemma forEachM_entries {B C : Type} (g : element -> B) (f : element -> M C)
    (l : list element) (s : state) :
  forEachM (fun entry => f (fst entry)) (map (fun e => (e, g e)) l) s = forEachM f l s.
Proof.
  revert s. induction l as [|x rest IH]; intros s; [reflexivity|].
  cbn [map forEachM fst]. unfold bind.
  destruct (f x s) as [[y|e] s1]; [apply IH|reflexivity].
Qed.

Lemma mapM_entries {B : Type} (g : element -> string -> nat -> M B)
    (base : string) (level : nat) (l : list element) (s : state) :
  mapM (fun entry => snd entry base level) (map (fun e => (e, g e)) l) s =
  mapM (fun e => g e base level) l s.
Proof.
  revert s. induction l as [|x rest IH]; intros s; [reflexivity|].
  cbn [map mapM snd]. unfold bind, ret in *.
  destruct (g x base level s) as [[y|e] s1]; [|reflexivity].
  rewrite IH. reflexivity.
Qed.

(** [createConfigs] as the source has it. *)
Lemma createConfigs_unfold (elements : list element) (base : string) (level : nat) (s : state) :
  createConfigs elements base level s =
  (validElements <- filterM verifyNoElementErrors elements ;;
   let sortedElements := sortElementsByDescriptorScore validElements in
   forEachM verifyNoElementWarnings sortedElements ;;;
   mapM (fun element => elementConfig element base level) sortedElements) s.
Proof.
  unfold createConfigs, createConfigsFrom. unfold bind at 1.
  rewrite filterM_entries. unfold bind, ret.
  destruct (filterM verifyNoElementErrors elements s) as [[validElements|e] s1]; [|reflexivity].
  cbn zeta. rewrite sortByDescriptorScore_entries, forEachM_entries.
  destruct (forEachM verifyNoElementWarnings _ s1) as [[[]|e] s2]; [|reflexivity].
  apply mapM_entries.
Qed.

(** The [true] of a [loader] or [action] prop becomes the built-in
    closure. *)
Definition compiledAction (props : props) : value :=
  if is_true (action props) then VFun (ConfigAction prefix) else action props.

Definition compiledLoader (level : nat) (props : props) : value :=
  if is_true (loader props) then VFun (ConfigLoader prefix level) else loader props.

(** The object that the callback returns. *)
Definition configObject (type : component) (props : props) (level : nat)
    (childConfigs : option (list config)) : config :=
  if is_Redirect type
  then RedirectConfig type (path props) (to props) (status props) (compiledAction props)
  else DefaultConfig type (path props) (root props) (status props)
         (compiledLoader level props) (compiledAction props) childConfigs.

(** The callback of [sortedElements.map] as the source has it. *)
Lemma elementConfig_unfold (type : component) (props : props) (base : string) (level : nat) (s : state) :
  elementConfig (Element type props) base level s =
  (let childBase := resolvePaths base (path props) in
   let childrenArray := childrenToArray (children props) in
   childConfigs <-
     (match childrenArray with
      | _ :: _ =>
          configs <- createConfigs childrenArray childBase (level + 1) ;;
          ret (Some configs)
      | [] =>
          registerLeaf (Element type props) (path props) childBase ;;;
          ret None
      end) ;;
   ret (configObject type props level childConfigs)) s.
Proof.
  cbn [elementConfig]. unfold createConfigs, configObject, compiledAction, compiledLoader.
  destruct (children props) as [[child|[|child array]]|]; reflexivity.
Qed.

(** ** Route trees *)

(** Induction over a route tree: a property of every text node, that
    holds of an element whenever it holds of its children, holds of every
    node. *)
Lemma element_tree_ind (P : element -> Prop)
    (text : forall s, P (Text s))
    (node : forall type props,
        Forall P (childrenToArray (children props)) -> P (Element type props)) :
  forall e, P e.
Proof.
  fix IH 1. intros [s|type props]; [apply text|].
  apply node. destruct props as [p r t st l a ch]. cbn [children].
  destruct ch as [[child|array]|]; cbn [childrenToArray].
  - constructor; [apply IH|constructor].
  - revert array. fix IHarray 1. intros [|child array].
    + constructor.
    + constructor; [apply IH|apply IHarray].
  - constructor.
Qed.

Definition isElement (e : element) : bool :=
  match e with
  | Text _ => false
  | Element _ _ => true
  end.

(** The children of a node, as [createConfigs] receives them. *)
Definition childrenOf (e : element) : list element :=
  match e with
  | Text _ => []
  | Element _ props => childrenToArray (children props)
  end.

(** [occurs e tree]: [e] is [tree] or a node below it. *)
Inductive occurs (e : element) : element -> Prop :=
| occurs_here : occurs e e
| occurs_below (parent child : element) :
    child ∈ childrenOf parent -> occurs e child -> occurs e parent.

(** The [RouterConfigError] that the assertions raise for a node, if
    any. *)
Definition violation (e : element) : option string :=
  match andThen (assertNoElementErrors e) (assertNoElementWarnings e) with
  | Throw (RouterConfigError message) => Some message
  | _ => None
  end.

(** The warnings of [s'] are those of [s] and possibly more. *)
Definition extends (s s' : state) : Prop :=
  exists more, warnings s' = warnings s ++ more.

Lemma extends_refl (s : state) : extends s s.
Proof. exists []. rewrite app_nil_r. reflexivity. Qed.

Lemma extends_same (s s' : state) : warnings s' = warnings s -> extends s s'.
Proof. intros H. exists []. rewrite app_nil_r. exact H. Qed.

Lemma extends_trans (s1 s2 s3 : state) : extends s1 s2 -> extends s2 s3 -> extends s1 s3.
Proof.
  intros [m1 H1] [m2 H2]. exists (m1 ++ m2). rewrite H2, H1, app_assoc. reflexivity.
Qed.

Lemma extends_elem_of (s s' : state) (w : warning) :
  extends s s' -> w ∈ warnings s -> w ∈ warnings s'.
Proof. intros [more ->] Hin. apply elem_of_app. left. exact Hin. Qed.

Lemma warn_extends (w : warning) (s : state) :
  extends s (snd (warn w s)) /\ w ∈ warnings (snd (warn w s)).
Proof.
  cbn. split; [exists [w]; reflexivity|]. apply elem_of_app. right. apply list_elem_of_here.
Qed.

(** *** What the assertions raise *)

Lemma assertNoElementWarnings_Element (type : component) (props : props) :
  assertNoElementWarnings (Element type props) = passed \/
  exists message, assertNoElementWarnings (Element type props) = Throw (RouterConfigError message).
Proof.
  unfold assertNoElementWarnings, assertElementPathHasNoHash,
    assertElementRedirectHasNoLoader, assertElementRedirictHasNoChildren,
    assertElementWithoutChildrenIsNotRoot.
  destruct (path props) as [p|]; [destruct (pathParts p !! 2%nat) as [hash|];
    [destruct (negb (String.eqb hash ""))|]|];
  cbn [andThen passed]; eauto;
  (destruct (truthy (loader props) && is_Redirect type); cbn [andThen passed]; eauto;
   destruct (children_truthy (children props) && is_Redirect type); cbn [andThen passed]; eauto;
   destruct (children_truthy (children props) && truthy (root props)); eauto).
Qed.

Lemma violation_Text (t : string) : violation (Text t) = Some (textNodeMessage t).
Proof. reflexivity. Qed.

Lemma violation_Element (type : component) (props : props) :
  assertNoElementWarnings (Element type props) =
  match violation (Element type props) with
  | Some message => Throw (RouterConfigError message)
  | None => passed
  end.
Proof.
  unfold violation. cbn [assertNoElementErrors assertElementIsNotTextNode andThen passed].
  destruct (assertNoElementWarnings_Element type props) as [->|[message ->]]; reflexivity.
Qed.

(** *** The two [verify] functions *)

Definition addWarning (s : state) (w : warning) : state :=
  State (duplicates s) (warnings s ++ [w]).

Lemma addWarning_extends (s : state) (w : warning) : extends s (addWarning s w).
Proof. exists [w]. reflexivity. Qed.

Lemma addWarning_elem_of (s : state) (w : warning) : w ∈ warnings (addWarning s w).
Proof. cbn. apply elem_of_app. right. apply list_elem_of_here. Qed.

Lemma verifyNoElementErrors_Element (type : component) (props : props) (s : state) :
  verifyNoElementErrors (Element type props) s = (Normal true, s).
Proof. reflexivity. Qed.

Lemma verifyNoElementErrors_Text (t : string) (s : state) :
  verifyNoElementErrors (Text t) s =
  if DEV
  then (Normal false, addWarning s (ConfigWarn (textNodeMessage t) rootElement [Text t]))
  else (Throw (RouterConfigError (textNodeMessage t)), s).
Proof.
  unfold verifyNoElementErrors. cbn [assertNoElementErrors assertElementIsNotTextNode].
  cbn [is_RouterConfigError errorMessage]. destruct DEV; reflexivity.
Qed.

Lemma verifyNoElementWarnings_Element (type : component) (props : props) (s : state) :
  verifyNoElementWarnings (Element type props) s =
  match violation (Element type props) with
  | None => (Normal true, s)
  | Some message =>
      if DEV
      then (Normal false, addWarning s (ConfigWarn message rootElement [Element type props]))
      else (Throw (RouterConfigError message), s)
  end.
Proof.
  unfold verifyNoElementWarnings. rewrite violation_Element.
  destruct (violation (Element type props)) as [message|]; [|reflexivity].
  cbn [is_RouterConfigError errorMessage]. destruct DEV; reflexivity.
Qed.

(** A childless element is registered or flagged; either way the callback
    goes on. *)
Lemma registerLeaf_Normal (element : element) (path : option string) (childBase : string) (s : state) :
  exists s', registerLeaf element path childBase s = (Normal tt, s') /\
             extends s s' /\ (DEV = false -> warnings s' = warnings s).
Proof.
  unfold registerLeaf, bind, getDuplicates.
  destruct (find _ (duplicates s)) as [duplicate|].
  - destruct DEV.
    + eexists. split; [reflexivity|]. split; [apply addWarning_extends|discriminate].
    + eexists. split; [reflexivity|]. split; [apply extends_same|]; reflexivity.
  - eexists. split; [reflexivity|]. split; [apply extends_same|]; reflexivity.
Qed.

(** ** Compiling in development *)

(** Every violation at or below [e] has been reported in [s]. *)
Definition warnedBelow (e : element) (s : state) : Prop :=
  forall e' message, occurs e' e -> violation e' = Some message ->
    ConfigWarn message rootElement [e'] ∈ warnings s.

Lemma warnedBelow_extends (e : element) (s s' : state) :
  extends s s' -> warnedBelow e s -> warnedBelow e s'.
Proof.
  intros Hext Hw e' message Hocc Hv. eapply extends_elem_of; [exact Hext|].
  apply (Hw e' message Hocc Hv).
Qed.

Section Development.

Hypothesis inDEV : DEV = true.

Lemma filterM_DEV (elements : list element) (s : state) :
  exists s',
    filterM verifyNoElementErrors elements s = (Normal (List.filter isElement elements), s') /\
    extends s s' /\
    forall t, Text t ∈ elements ->
      ConfigWarn (textNodeMessage t) rootElement [Text t] ∈ warnings s'.
Proof.
  revert s. induction elements as [|e rest IH]; intros s.
  - exists s. split; [reflexivity|]. split; [apply extends_refl|].
    intros t Ht. apply elem_of_nil in Ht. contradiction.
  - cbn [filterM List.filter]. unfold bind, ret. destruct e as [t|type props].
    + rewrite verifyNoElementErrors_Text, inDEV.
      destruct (IH (addWarning s (ConfigWarn (textNodeMessage t) rootElement [Text t])))
        as (s' & -> & Hext & Hwarned).
      exists s'. split; [reflexivity|]. split.
      * eapply extends_trans; [apply addWarning_extends|exact Hext].
      * intros t' Ht'. apply elem_of_cons in Ht' as [Heq|Hin]; [|apply Hwarned; exact Hin].
        injection Heq as ->. eapply extends_elem_of; [exact Hext|apply addWarning_elem_of].
    + rewrite verifyNoElementErrors_Element.
      destruct (IH s) as (s' & -> & Hext & Hwarned).
      exists s'. split; [reflexivity|]. split; [exact Hext|].
      intros t Ht. apply elem_of_cons in Ht as [Heq|Hin]; [discriminate|apply Hwarned; exact Hin].
Qed.

Lemma forEachM_DEV (l : list element) (s : state) :
  Forall (fun e => isElement e = true) l ->
  exists s',
    forEachM verifyNoElementWarnings l s = (Normal tt, s') /\
    extends s s' /\
    forall e message, e ∈ l -> violation e = Some message ->
      ConfigWarn message rootElement [e] ∈ warnings s'.
Proof.
  intros Hall. revert s. induction Hall as [|e rest He Hrest IH]; intros s.
  - exists s. split; [reflexivity|]. split; [apply extends_refl|].
    intros e message He. apply elem_of_nil in He. contradiction.
  - destruct e as [t|type props]; [discriminate|].
    cbn [forEachM]. unfold bind. rewrite verifyNoElementWarnings_Element, inDEV.
    destruct (violation (Element type props)) as [message|] eqn:Hv.
    + destruct (IH (addWarning s (ConfigWarn message rootElement [Element type props])))
        as (s' & -> & Hext & Hwarned).
      exists s'. split; [reflexivity|]. split.
      * eapply extends_trans; [apply addWarning_extends|exact Hext].
      * intros e m Hin Hve. apply elem_of_cons in Hin as [->|Hin]; [|eapply Hwarned; eassumption].
        rewrite Hv in Hve. injection Hve as <-.
        eapply extends_elem_of; [exact Hext|apply addWarning_elem_of].
    + destruct (IH s) as (s' & -> & Hext & Hwarned).
      exists s'. split; [reflexivity|]. split; [exact Hext|].
      intros e m Hin Hve. apply elem_of_cons in Hin as [->|Hin]; [|eapply Hwarned; eassumption].
      rewrite Hv in Hve. discriminate.
Qed.

(** The callback succeeds on an element and reports what lies below it. *)
Definition compilesInDEV (e : element) : Prop :=
  isElement e = true ->
  forall base level s, exists config s',
    elementConfig e base level s = (Normal config, s') /\
    extends s s' /\
    forall child, child ∈ childrenOf e -> warnedBelow child s'.

Definition levelCompilesInDEV (elements : list element) : Prop :=
  forall base level s, exists configs s',
    createConfigs elements base level s = (Normal configs, s') /\
    extends s s' /\
    forall e, e ∈ elements -> warnedBelow e s'.

Lemma mapM_DEV (base : string) (level : nat) (l : list element) (s : state) :
  Forall (fun e => isElement e = true /\ compilesInDEV e) l ->
  exists configs s',
    mapM (fun e => elementConfig e base level) l s = (Normal configs, s') /\
    extends s s' /\
    forall e child, e ∈ l -> child ∈ childrenOf e -> warnedBelow child s'.
Proof.
  intros Hall. revert s. induction Hall as [|e rest [He Hcompiles] Hrest IH]; intros s.
  - exists [], s. split; [reflexivity|]. split; [apply extends_refl|].
    intros e child He. apply elem_of_nil in He. contradiction.
  - cbn [mapM]. unfold bind, ret.
    destruct (Hcompiles He base level s) as (config & s1 & -> & Hext1 & Hbelow).
    destruct (IH s1) as (configs & s' & -> & Hext & Hwarned).
    exists (config :: configs), s'. split; [reflexivity|]. split.
    + eapply extends_trans; eassumption.
    + intros e' child Hin Hchild.
      apply elem_of_cons in Hin as [->|Hin]; [|eapply Hwarned; eassumption].
      eapply warnedBelow_extends; [exact Hext|]. apply Hbelow. exact Hchild.
Qed.

Lemma elem_of_sorted_valid (e : element) (elements : list element) :
  e ∈ sortElementsByDescriptorScore (List.filter isElement elements) <->
  e ∈ elements /\ isElement e = true.
Proof.
  unfold sortElementsByDescriptorScore.
  rewrite sortByDescriptorScore_Permutation.
  rewrite !list_elem_of_In, filter_In. reflexivity.
Qed.

Lemma level_DEV (elements : list element) :
  Forall compilesInDEV elements -> levelCompilesInDEV elements.
Proof.
  intros Hall base level s. rewrite createConfigs_unfold. unfold bind.
  destruct (filterM_DEV elements s) as (s1 & -> & Hext1 & Htexts). cbn zeta.
  set (sorted := sortElementsByDescriptorScore (List.filter isElement elements)).
  assert (Hsorted : Forall (fun e => isElement e = true /\ compilesInDEV e) sorted).
  { apply Forall_forall. intros e He. apply elem_of_sorted_valid in He as [Hin Hel].
    split; [exact Hel|]. rewrite Forall_forall in Hall. apply Hall. exact Hin. }
  destruct (forEachM_DEV sorted s1) as (s2 & -> & Hext2 & Hviolations).
  { eapply Forall_impl; [exact Hsorted|]. intros e [He _]. exact He. }
  destruct (mapM_DEV base level sorted s2 Hsorted) as (configs & s3 & -> & Hext3 & Hbelow).
  exists configs, s3. split; [reflexivity|]. split.
  - exact (extends_trans _ _ _ Hext1 (extends_trans _ _ _ Hext2 Hext3)).
  - intros e He e' message Hocc Hv. inversion Hocc as [|parent child Hchild Hocc']; subst.
    + destruct e as [t|type props].
      * rewrite violation_Text in Hv. injection Hv as <-.
        apply (extends_elem_of s1 s3); [exact (extends_trans _ _ _ Hext2 Hext3)|].
        apply Htexts. exact He.
      * eapply extends_elem_of; [exact Hext3|].
        apply Hviolations; [|exact Hv].
        apply elem_of_sorted_valid. split; [exact He|reflexivity].
    + destruct e as [t|type props]; [apply elem_of_nil in Hchild; contradiction|].
      apply (Hbelow (Element type props) child); [|exact Hchild|exact Hocc'|exact Hv].
      apply elem_of_sorted_valid. split; [exact He|reflexivity].
Qed.

Lemma element_compilesInDEV (e : element) : compilesInDEV e.
Proof.
  induction e as [t|type props IH] using element_tree_ind; intros Hel; [discriminate|].
  intros base level s. rewrite elementConfig_unfold. cbn zeta. unfold bind, ret.
  cbn [childrenOf].
  destruct (childrenToArray (children props)) as [|child array] eqn:Hchildren.
  - destruct (registerLeaf_Normal (Element type props) (path props)
                (resolvePaths base (path props)) s) as (s' & -> & Hext & _).
    eexists _, s'. split; [reflexivity|]. split; [exact Hext|].
    intros c Hc. apply elem_of_nil in Hc. contradiction.
  - destruct (level_DEV (child :: array) IH (resolvePaths base (path props)) (level + 1)%nat s)
      as (configs & s' & -> & Hext & Hbelow).
    eexists _, s'. split; [reflexivity|]. split; [exact Hext|exact Hbelow].
Qed.

(** In development [createConfigs] returns, and every violation in the
    trees it was given has been reported when it does. *)
Lemma createConfigs_DEV (elements : list element) : levelCompilesInDEV elements.
Proof. apply level_DEV, Forall_forall. intros e _. apply element_compilesInDEV. Qed.

End Development.

(** ** Compiling outside development *)

(** No node at or below [e] violates an assertion. *)
Definition cleanBelow (e : element) : Prop :=
  forall e', occurs e' e -> violation e' = None.

(** [message] is the violation of a node at or below one of
    [elements]. *)
Definition raisedBelow (elements : list element) (message : string) : Prop :=
  exists e0 e', e0 ∈ elements /\ occurs e' e0 /\ violation e' = Some message.

Section Production.

Hypothesis inProduction : DEV = false.

Lemma filterM_production (elements : list element) (s : state) :
  (filterM verifyNoElementErrors elements s = (Normal elements, s) /\
   Forall (fun e => isElement e = true) elements) \/
  (exists t, Text t ∈ elements /\
     filterM verifyNoElementErrors elements s =
     (Throw (RouterConfigError (textNodeMessage t)), s)).
Proof.
  induction elements as [|e rest IH].
  - left. split; [reflexivity|constructor].
  - cbn [filterM]. unfold bind, ret. destruct e as [t|type props].
    + right. exists t. split; [apply list_elem_of_here|].
      rewrite verifyNoElementErrors_Text, inProduction. reflexivity.
    + rewrite verifyNoElementErrors_Element.
      destruct IH as [[-> Hall]|(t & Hin & ->)].
      * left. split; [reflexivity|]. constructor; [reflexivity|exact Hall].
      * right. exists t. split; [apply list_elem_of_further; exact Hin|reflexivity].
Qed.

Lemma forEachM_production (l : list element) (s : state) :
  Forall (fun e => isElement e = true) l ->
  (forEachM verifyNoElementWarnings l s = (Normal tt, s) /\
   forall e, e ∈ l -> violation e = None) \/
  (exists e message, e ∈ l /\ violation e = Some message /\
     forEachM verifyNoElementWarnings l s = (Throw (RouterConfigError message), s)).
Proof.
  intros Hall. induction Hall as [|e rest He Hrest IH].
  - left. split; [reflexivity|]. intros e He. apply elem_of_nil in He. contradiction.
  - destruct e as [t|type props]; [discriminate|].
    cbn [forEachM]. unfold bind. rewrite verifyNoElementWarnings_Element, inProduction.
    destruct (violation (Element type props)) as [message|] eqn:Hv.
    + right. exists (Element type props), message.
      split; [apply list_elem_of_here|]. split; [exact Hv|reflexivity].
    + destruct IH as [[-> Hclean]|(e & message & Hin & Hve & ->)].
      * left. split; [reflexivity|].
        intros e Hin. apply elem_of_cons in Hin as [->|Hin]; [exact Hv|apply Hclean; exact Hin].
      * right. exists e, message. split; [apply list_elem_of_further; exact Hin|].
        split; [exact Hve|reflexivity].
Qed.

Definition compilesInProduction (e : element) : Prop :=
  isElement e = true ->
  forall base level s,
    (exists config s',
       elementConfig e base level s = (Normal config, s') /\
       warnings s' = warnings s /\
       forall child, child ∈ childrenOf e -> cleanBelow child) \/
    (exists message s',
       elementConfig e base level s = (Throw (RouterConfigError message), s') /\
       warnings s' = warnings s /\
       raisedBelow (childrenOf e) message).

Definition levelCompilesInProduction (elements : list element) : Prop :=
  forall base level s,
    (exists configs s',
       createConfigs elements base level s = (Normal configs, s') /\
       warnings s' = warnings s /\
       forall e, e ∈ elements -> cleanBelow e) \/
    (exists message s',
       createConfigs elements base level s = (Throw (RouterConfigError message), s') /\
       warnings s' = warnings s /\
       raisedBelow elements message).

Lemma mapM_production (base : string) (level : nat) (l : list element) (s : state) :
  Forall (fun e => isElement e = true /\ compilesInProduction e) l ->
  (exists configs s',
     mapM (fun e => elementConfig e base level) l s = (Normal configs, s') /\
     warnings s' = warnings s /\
     forall e child, e ∈ l -> child ∈ childrenOf e -> cleanBelow child) \/
  (exists message s' e,
     mapM (fun e => elementConfig e base level) l s = (Throw (RouterConfigError message), s') /\
     warnings s' = warnings s /\
     e ∈ l /\ raisedBelow (childrenOf e) message).
Proof.
  intros Hall. revert s. induction Hall as [|e rest [He Hcompiles] Hrest IH]; intros s.
  - left. exists [], s. split; [reflexivity|]. split; [reflexivity|].
    intros e child He. apply elem_of_nil in He. contradiction.
  - cbn [mapM]. unfold bind, ret.
    destruct (Hcompiles He base level s)
      as [(config & s1 & -> & Hsame1 & Hclean1)|(message & s1 & -> & Hsame1 & Hraised)].
    + destruct (IH s1)
        as [(configs & s' & -> & Hsame & Hclean)|(message & s' & e' & -> & Hsame & Hin & Hraised)].
      * left. exists (config :: configs), s'. split; [reflexivity|].
        split; [congruence|].
        intros e' child Hin Hchild.
        apply elem_of_cons in Hin as [->|Hin]; [apply Hclean1; exact Hchild|].
        eapply Hclean; eassumption.
      * right. exists message, s', e'. split; [reflexivity|]. split; [congruence|].
        split; [apply list_elem_of_further; exact Hin|exact Hraised].
    + right. exists message, s1, e. split; [reflexivity|]. split; [exact Hsame1|].
      split; [apply list_elem_of_here|exact Hraised].
Qed.

Lemma level_production (elements : list element) :
  Forall compilesInProduction elements -> levelCompilesInProduction elements.
Proof.
  intros Hall base level s. rewrite createConfigs_unfold. unfold bind.
  destruct (filterM_production elements s) as [[-> Helements]|(t & Hin & ->)].
  2:{ right. exists (textNodeMessage t), s. split; [reflexivity|]. split; [reflexivity|].
      exists (Text t), (Text t). split; [exact Hin|]. split; [constructor|reflexivity]. }
  cbn zeta.
  assert (Hvalid : List.filter isElement elements = elements).
  { clear -Helements. induction Helements as [|e rest He Hrest IH]; [reflexivity|].
    cbn [List.filter]. rewrite He, IH. reflexivity. }
  set (sorted := sortElementsByDescriptorScore elements).
  assert (Hmem : forall e, e ∈ sorted <-> e ∈ elements).
  { intros e. unfold sorted, sortElementsByDescriptorScore.
    rewrite sortByDescriptorScore_Permutation. reflexivity. }
  assert (Hsorted : Forall (fun e => isElement e = true /\ compilesInProduction e) sorted).
  { apply Forall_forall. intros e He. apply Hmem in He.
    rewrite Forall_forall in Hall, Helements. split; [apply Helements|apply Hall]; exact He. }
  destruct (forEachM_production sorted s)
    as [[-> Hclean]|(e & message & Hin & Hv & ->)].
  { eapply Forall_impl; [exact Hsorted|]. intros e [He _]. exact He. }
  2:{ right. exists message, s. split; [reflexivity|]. split; [reflexivity|].
      exists e, e. split; [apply Hmem; exact Hin|]. split; [constructor|exact Hv]. }
  destruct (mapM_production base level sorted s Hsorted)
    as [(configs & s' & -> & Hsame & Hbelow)|(message & s' & e & -> & Hsame & Hin & Hraised)].
  - left. exists configs, s'. split; [reflexivity|]. split; [exact Hsame|].
    intros e He e' Hocc. inversion Hocc as [|parent child Hchild Hocc']; subst.
    + apply Hclean. apply Hmem. exact He.
    + apply (Hbelow e child); [apply Hmem; exact He|exact Hchild|exact Hocc'].
  - right. exists message, s'. split; [reflexivity|]. split; [exact Hsame|].
    destruct Hraised as (child & e' & Hchild & Hocc & Hv).
    exists e, e'. split; [apply Hmem; exact Hin|].
    split; [eapply occurs_below; eassumption|exact Hv].
Qed.

Lemma element_compilesInProduction (e : element) : compilesInProduction e.
Proof.
  induction e as [t|type props IH] using element_tree_ind; intros Hel; [discriminate|].
  intros base level s. rewrite elementConfig_unfold. cbn zeta. unfold bind, ret.
  cbn [childrenOf].
  destruct (childrenToArray (children props)) as [|child array] eqn:Hchildren.
  - destruct (registerLeaf_Normal (Element type props) (path props)
                (resolvePaths base (path props)) s) as (s' & -> & _ & Hsame).
    left. eexists _, s'. split; [reflexivity|]. split; [apply Hsame, inProduction|].
    intros c Hc. apply elem_of_nil in Hc. contradiction.
  - destruct (level_production (child :: array) IH (resolvePaths base (path props)) (level + 1)%nat s)
      as [(configs & s' & -> & Hsame & Hclean)|(message & s' & -> & Hsame & Hraised)].
    + left. eexists _, s'. split; [reflexivity|]. split; [exact Hsame|exact Hclean].
    + right. exists message, s'. split; [reflexivity|]. split; [exact Hsame|exact Hraised].
Qed.

(** Outside development [createConfigs] either returns, from trees without
    a violation, or raises the [RouterConfigError] of a violation in them;
    it writes no warning. *)
Lemma createConfigs_production (elements : list element) : levelCompilesInProduction elements.
Proof. apply level_production, Forall_forall. intros e _. apply element_compilesInProduction. Qed.

End Production.

(** ** What a level emits *)

Lemma DEV_cases : DEV = true \/ DEV = false.
Proof. destruct (Bool.bool_dec DEV true) as [H|H]; [left; exact H|right]. apply not_true_is_false, H. Qed.

(** When the filter returns, it returns the elements among its input. *)
Lemma filterM_Normal (elements valid : list element) (s s' : state) :
  filterM verifyNoElementErrors elements s = (Normal valid, s') ->
  valid = List.filter isElement elements.
Proof.
  intros Hfilter. destruct DEV_cases as [HDEV|HDEV].
  - destruct (filterM_DEV HDEV elements s) as (s1 & Heq & _). congruence.
  - destruct (filterM_production HDEV elements s) as [[Heq Hall]|(t & _ & Heq)]; [|congruence].
    assert (valid = elements) as -> by congruence.
    clear -Hall. induction Hall as [|e rest He Hrest IH]; [reflexivity|].
    cbn [List.filter]. rewrite He, <- IH. reflexivity.
Qed.

Lemma mapM_Forall2 {A B : Type} (f : A -> M B) (l : list A) (ys : list B) (s s' : state) :
  mapM f l s = (Normal ys, s') ->
  Forall2 (fun x y => exists s1 s2, f x s1 = (Normal y, s2)) l ys.
Proof.
  revert ys s. induction l as [|x rest IH]; intros ys s; cbn [mapM]; unfold bind, ret.
  - intros [= <- <-]. constructor.
  - destruct (f x s) as [[y|e] s1] eqn:Hx; [|discriminate].
    destruct (mapM f rest s1) as [[more|e] s2] eqn:Hrest; [|discriminate].
    intros [= <- <-]. constructor; [exists s, s1; exact Hx|].
    eapply IH. exact Hrest.
Qed.

(** [config] is the object that the callback returns for [e] at [level],
    with some value for [children]. *)
Definition emittedFor (level : nat) (e : element) (config : config) : Prop :=
  exists type props childConfigs,
    e = Element type props /\ config = configObject type props level childConfigs.

Lemma elementConfig_emitted (e : element) (base : string) (level : nat)
    (config : config) (s s' : state) :
  elementConfig e base level s = (Normal config, s') -> emittedFor level e config.
Proof.
  destruct e as [t|type props]; [discriminate|].
  rewrite elementConfig_unfold. cbn zeta. unfold bind, ret.
  match goal with |- context [match ?m s with _ => _ end] =>
    destruct (m s) as [[childConfigs|e] s1]; [|discriminate]
  end.
  intros [= <- <-]. exists type, props, childConfigs. split; reflexivity.
Qed.

(** When [createConfigs] returns, it returns one config for each element
    of the level, in the order of the sort. *)
Lemma createConfigs_emitted (elements : list element) (base : string) (level : nat)
    (configs : list config) (s s' : state) :
  createConfigs elements base level s = (Normal configs, s') ->
  Forall2 (fun e config => exists s1 s2, elementConfig e base level s1 = (Normal config, s2))
    (sortElementsByDescriptorScore (List.filter isElement elements)) configs.
Proof.
  rewrite createConfigs_unfold. unfold bind.
  destruct (filterM verifyNoElementErrors elements s) as [[valid|e] s1] eqn:Hfilter; [|discriminate].
  apply filterM_Normal in Hfilter as ->. cbn zeta.
  destruct (forEachM verifyNoElementWarnings _ s1) as [[[]|e] s2]; [|discriminate].
  apply mapM_Forall2.
Qed.

Lemma StronglySorted_ext_in {A : Type} (R R' : A -> A -> Prop) (l : list A) :
  (forall a b, a ∈ l -> b ∈ l -> R a b -> R' a b) ->
  StronglySorted R l -> StronglySorted R' l.
Proof.
  intros Hext Hsorted. induction Hsorted as [|x rest Hrest IH Hx]; [constructor|].
  constructor.
  - apply IH. intros a b Ha Hb. apply Hext; apply list_elem_of_further; assumption.
  - rewrite Forall_forall in Hx. apply Forall_forall. intros y Hy.
    apply Hext; [apply list_elem_of_here|apply list_elem_of_further; exact Hy|apply Hx, Hy].
Qed.

(** X17. For a sibling set in which no path is the name of a property that
    every object inherits, and which does not hold both an element
    without a path and one with the path ["undefined"]: whenever
    [createConfigs] returns, the configs it returns are ordered by
    descending descriptor score of their paths, and they are the configs
    of the set's elements in an arrangement in which the elements of any
    one score stand in the order they were declared in. *)
Theorem emitted_children_sorted_stable (elements : list element) (base : string) (level : nat)
    (s s' : state) (configs : list config) :
  let paths := map elementPath (List.filter isElement elements) in
  (forall name, Some name ∈ paths -> objectPrototype name = None) ->
  (None ∈ paths -> objectPrototype "undefined" = None /\ Some "undefined" ∉ paths) ->
  createConfigs elements base level s = (Normal configs, s') ->
  StronglySorted (fun a b => descriptorScore (pathOf b) <= descriptorScore (pathOf a)) configs /\
  exists arranged,
    Forall2 (emittedFor level) arranged configs /\
    arranged ≡ₚ List.filter isElement elements /\
    forall v,
      List.filter (fun e => descriptorScore (elementPath e) =? v) arranged =
      List.filter (fun e => descriptorScore (elementPath e) =? v) (List.filter isElement elements).
Proof.
  intros paths Hnames Hpathless Hrun.
  assert (Hplain : plainKeys paths).
  { intros [name|] Hp; [exact (Hnames name Hp)|exact (proj1 (Hpathless Hp))]. }
  assert (Hkeys : unambiguousKeys paths).
  { intros [p|] [q|] Hp Hq Hkey; cbn in Hkey.
    - rewrite Hkey. reflexivity.
    - subst p. destruct (proj2 (Hpathless Hq) Hp).
    - subst q. destruct (proj2 (Hpathless Hp) Hq).
    - reflexivity. }
  pose proof (createConfigs_emitted _ _ _ _ _ _ Hrun) as Hemitted.
  set (valid := List.filter isElement elements) in *.
  set (arranged := sortElementsByDescriptorScore valid) in *.
  assert (Hscore : forall e, e ∈ valid ->
             recordedScore paths (elementPath e) = descriptorScore (elementPath e)).
  { intros e He. apply recordedScore_unambiguous; [exact Hplain|exact Hkeys|].
    apply list_elem_of_fmap. exists e. split; [reflexivity|exact He]. }
  assert (Hperm : arranged ≡ₚ valid).
  { unfold arranged, sortElementsByDescriptorScore. apply sortByDescriptorScore_Permutation. }
  assert (Hsorted : StronglySorted
            (fun a b => descriptorScore (elementPath b) <= descriptorScore (elementPath a))
            arranged).
  { pose proof (sortByDescriptorScore_sorted (fun e => e) valid Hplain) as Hs.
    fold (sortElementsByDescriptorScore valid) in Hs. fold arranged in Hs. cbn beta in Hs.
    eapply StronglySorted_ext_in; [|exact Hs]. cbn beta. intros a b Ha Hb Hab.
    rewrite Hperm in Ha, Hb. rewrite <- (Hscore a Ha), <- (Hscore b Hb). exact Hab. }
  assert (Hforall2 : Forall2 (emittedFor level) arranged configs).
  { eapply Forall2_impl; [exact Hemitted|]. intros e c (s1 & s2 & Hc).
    eapply elementConfig_emitted. exact Hc. }
  split.
  - clear -Hsorted Hforall2. revert Hsorted.
    induction Hforall2 as [|e c es cs Hec Hrest IH]; intros Hsorted; [constructor|].
    apply StronglySorted_inv in Hsorted as [Hs Hall].
    constructor; [apply IH; exact Hs|].
    rewrite Forall_forall in Hall. rewrite Forall_forall. intros c' Hc'.
    apply list_elem_of_lookup in Hc' as [i Hi].
    destruct (Forall2_lookup_r _ _ _ _ _ Hrest Hi) as (e' & He' & Hec').
    assert (Hin : e' ∈ es) by (apply list_elem_of_lookup; exists i; exact He').
    specialize (Hall e' Hin).
    destruct Hec as (ty & pr & ch & -> & ->), Hec' as (ty' & pr' & ch' & -> & ->).
    unfold configObject. cbn [elementPath] in Hall.
    destruct (is_Redirect ty), (is_Redirect ty'); exact Hall.
  - exists arranged. split; [exact Hforall2|]. split; [exact Hperm|].
    intros v.
    assert (Hstable :
              List.filter (fun e => recordedScore paths (elementPath e) =? v) arranged =
              List.filter (fun e => recordedScore paths (elementPath e) =? v) valid)
      by exact (sortByDescriptorScore_stable (fun e => e) valid v Hplain).
    rewrite <- (List.filter_ext_in
                  (fun e => recordedScore paths (elementPath e) =? v)
                  (fun e => descriptorScore (elementPath e) =? v) arranged).
    + rewrite Hstable. apply List.filter_ext_in. intros e He.
      rewrite (Hscore e (proj2 (list_elem_of_In _ _) He)). reflexivity.
    + intros e He. apply list_elem_of_In in He. rewrite Hperm in He.
      rewrite (Hscore e He). reflexivity.
Qed.

(** ** Childless elements with an equivalent descriptor *)

(** The structure that a childless element with [path] registers when it
    is compiled against [base]. *)
Definition leafStructure (base : string) (path : option string) : structure :=
  let childBase := resolvePaths base path in
  descriptorStructure
    match path with
    | None => joinPaths childBase "*"
    | Some _ => childBase
    end.

(** Every element of a level has its config among those the level
    returns. *)
Lemma createConfigs_includes (elements : list element) (base : string) (level : nat)
    (configs : list config) (s s' : state) (e : element) :
  createConfigs elements base level s = (Normal configs, s') ->
  e ∈ elements -> isElement e = true ->
  exists config, config ∈ configs /\ emittedFor level e config.
Proof.
  intros Hrun Hin Hel.
  pose proof (createConfigs_emitted _ _ _ _ _ _ Hrun) as Hemitted.
  assert (Hsorted : e ∈ sortElementsByDescriptorScore (List.filter isElement elements))
    by (apply elem_of_sorted_valid; split; assumption).
  apply list_elem_of_lookup in Hsorted as [i Hi].
  destruct (Forall2_lookup_l _ _ _ _ _ Hemitted Hi) as (config & Hconfig & s1 & s2 & Hc).
  exists config. split; [apply list_elem_of_lookup; exists i; exact Hconfig|].
  eapply elementConfig_emitted. exact Hc.
Qed.

(** C7 (as the code has it). In development, when a childless element is
    compiled and [duplicates] holds an element registered earlier in the
    pass whose descriptor is equivalent to its own, the callback writes the
    duplicate-route warning naming the first such element and this one,
    leaves [duplicates] as it is, and returns this element's config like
    that of any other childless element.  No call of [createConfigs] fails
    or drops a warning, and the configs it returns include one for every
    element it was given. *)
Theorem duplicate_leaf_flagged_in_development (type : component) (props : props)
    (base : string) (level : nat) (s : state) (duplicate : element * structure) :
  DEV = true ->
  childrenToArray (children props) = [] ->
  find (fun seen => equivalentDescriptors (snd seen) (leafStructure base (path props)))
       (duplicates s) = Some duplicate ->
  elementConfig (Element type props) base level s =
    (Normal (configObject type props level None),
     State (duplicates s)
           (warnings s ++
            [ConfigWarn duplicateMessage rootElement [fst duplicate; Element type props]])) /\
  forall elements base' level' s0, exists configs s',
    createConfigs elements base' level' s0 = (Normal configs, s') /\
    extends s0 s' /\
    forall e, e ∈ elements -> isElement e = true ->
      exists config, config ∈ configs /\ emittedFor level' e config.
Proof.
  intros HDEV Hleaf Hfind. split.
  - rewrite elementConfig_unfold. cbn zeta. rewrite Hleaf.
    cbv beta iota zeta delta [bind ret registerLeaf getDuplicates].
    unfold leafStructure in Hfind. cbn zeta in Hfind. rewrite Hfind, HDEV. reflexivity.
  - intros elements base' level' s0.
    destruct (createConfigs_DEV HDEV elements base' level' s0) as (configs & s' & Hrun & Hext & _).
    exists configs, s'. split; [exact Hrun|]. split; [exact Hext|].
    intros e Hin Hel. eapply createConfigs_includes; eassumption.
Qed.

(** ** Where the nodes of a compiled tree come from *)

Definition configChildren (c : config) : list config :=
  default [] (childrenOfConfig c).

(** [configOccurs c tree]: [c] is [tree] or a node below it. *)
Inductive configOccurs (c : config) : config -> Prop :=
| configOccurs_here : configOccurs c c
| configOccurs_below (parent child : config) :
    child ∈ configChildren parent -> configOccurs c child -> configOccurs c parent.

(** Every node of the config compiled from [e] is the object returned for
    an element at or below [e]. *)
Definition tracesBack (e : element) : Prop :=
  forall base level s config s',
    elementConfig e base level s = (Normal config, s') ->
    forall c, configOccurs c config ->
      exists type props level' childConfigs,
        occurs (Element type props) e /\
        c = configObject type props level' childConfigs.

Lemma level_tracesBack (elements : list element) :
  Forall tracesBack elements ->
  forall base level s configs s',
    createConfigs elements base level s = (Normal configs, s') ->
    forall c0 c, c0 ∈ configs -> configOccurs c c0 ->
      exists e0 type props level' childConfigs,
        e0 ∈ elements /\ occurs (Element type props) e0 /\
        c = configObject type props level' childConfigs.
Proof.
  intros Hall base level s configs s' Hrun c0 c Hc0 Hocc.
  pose proof (createConfigs_emitted _ _ _ _ _ _ Hrun) as Hemitted.
  apply list_elem_of_lookup in Hc0 as [i Hi].
  destruct (Forall2_lookup_r _ _ _ _ _ Hemitted Hi) as (e & He & s1 & s2 & Hconfig).
  assert (Hin : e ∈ elements).
  { apply (elem_of_sorted_valid e elements). apply list_elem_of_lookup. exists i. exact He. }
  rewrite Forall_forall in Hall.
  destruct (Hall e Hin base level s1 c0 s2 Hconfig c Hocc) as (type & props & lv & ch & Ho & Hc).
  exists e, type, props, lv, ch. split; [exact Hin|]. split; assumption.
Qed.

Lemma configChildren_configObject_None (type : component) (props : props) (level : nat) :
  configChildren (configObject type props level None) = [].
Proof. unfold configObject. destruct (is_Redirect type); reflexivity. Qed.

Lemma element_tracesBack (e : element) : tracesBack e.
Proof.
  induction e as [t|type props IH] using element_tree_ind;
    intros base level s config s' Hrun c Hocc; [discriminate|].
  rewrite elementConfig_unfold in Hrun. cbn zeta in Hrun. unfold bind, ret in Hrun.
  destruct (childrenToArray (children props)) as [|child array] eqn:Hchildren.
  - destruct (registerLeaf_Normal (Element type props) (path props)
                (resolvePaths base (path props)) s) as (s1 & Hleaf & _).
    rewrite Hleaf in Hrun. injection Hrun as <- <-.
    inversion Hocc as [|parent kid Hkid Hbelow]; subst.
    + exists type, props, level, None. split; [constructor|reflexivity].
    + rewrite configChildren_configObject_None in Hkid.
      apply elem_of_nil in Hkid. contradiction.
  - destruct (createConfigs (child :: array) (resolvePaths base (path props)) (level + 1)%nat s)
      as [[configs|err] s1] eqn:Hlevel; [|discriminate].
    injection Hrun as <- <-.
    inversion Hocc as [|parent kid Hkid Hbelow]; subst.
    + exists type, props, level, (Some configs). split; [constructor|reflexivity].
    + unfold configObject, configChildren in Hkid.
      destruct (is_Redirect type); cbn in Hkid; [apply elem_of_nil in Hkid; contradiction|].
      destruct (level_tracesBack (child :: array) IH _ _ _ _ _ Hlevel kid c Hkid Hbelow)
        as (e0 & ty & pr & lv & ch & Hin & Ho & Hc).
      exists ty, pr, lv, ch. split; [|exact Hc].
      eapply occurs_below; [|exact Ho]. cbn [childrenOf]. rewrite Hchildren. exact Hin.
Qed.

Lemma createConfigs_tracesBack (elements : list element) (base : string) (level : nat)
    (s s' : state) (configs : list config) (c0 c : config) :
  createConfigs elements base level s = (Normal configs, s') ->
  c0 ∈ configs -> configOccurs c c0 ->
  exists e0 type props level' childConfigs,
    e0 ∈ elements /\ occurs (Element type props) e0 /\
    c = configObject type props level' childConfigs.
Proof.
  intros Hrun. eapply level_tracesBack; [|exact Hrun].
  apply Forall_forall. intros e _. apply element_tracesBack.
Qed.

(** ** Invariants of the compiler's state *)

(** A property of the state that survives a warning about one element and
    the registration of a childless element survives [createConfigs],
    whether it returns or throws. *)
Section Preservation.

Variable P : state -> Prop.
Hypothesis P_warn :
  forall s message e, P s -> P (addWarning s (ConfigWarn message rootElement [e])).
Hypothesis P_leaf :
  forall element path childBase s, P s -> P (snd (registerLeaf element path childBase s)).

Lemma verifyNoElementErrors_preserves (e : element) (s : state) :
  P s -> P (snd (verifyNoElementErrors e s)).
Proof.
  intros HP. destruct e as [t|type props].
  - rewrite verifyNoElementErrors_Text.
    destruct DEV_cases as [->| ->]; cbn [snd]; [apply P_warn|]; exact HP.
  - exact HP.
Qed.

Lemma verifyNoElementWarnings_preserves (e : element) (s : state) :
  P s -> P (snd (verifyNoElementWarnings e s)).
Proof.
  intros HP. destruct e as [t|type props].
  - unfold verifyNoElementWarnings. cbn. rewrite andb_false_r. exact HP.
  - rewrite verifyNoElementWarnings_Element.
    destruct (violation (Element type props)) as [message|]; [|exact HP].
    destruct DEV_cases as [->| ->]; cbn [snd]; [apply P_warn|]; exact HP.
Qed.

Lemma filterM_preserves {A : Type} (f : A -> M bool) (l : list A) (s : state) :
  (forall x s, P s -> P (snd (f x s))) -> P s -> P (snd (filterM f l s)).
Proof.
  intros Hf. revert s. induction l as [|x rest IH]; intros s HP; [exact HP|].
  cbn [filterM]. unfold bind, ret.
  pose proof (Hf x s HP) as Hx. destruct (f x s) as [[keep|e] s1]; cbn [snd] in *; [|exact Hx].
  pose proof (IH s1 Hx) as Hrest.
  destruct (filterM f rest s1) as [[kept|e] s2]; exact Hrest.
Qed.

Lemma forEachM_preserves {A B : Type} (f : A -> M B) (l : list A) (s : state) :
  (forall x s, P s -> P (snd (f x s))) -> P s -> P (snd (forEachM f l s)).
Proof.
  intros Hf. revert s. induction l as [|x rest IH]; intros s HP; [exact HP|].
  cbn [forEachM]. unfold bind.
  pose proof (Hf x s HP) as Hx. destruct (f x s) as [[y|e] s1]; cbn [snd] in *; [|exact Hx].
  apply IH. exact Hx.
Qed.

Lemma mapM_preserves {A B : Type} (f : A -> M B) (l : list A) (s : state) :
  Forall (fun x => forall s, P s -> P (snd (f x s))) l -> P s -> P (snd (mapM f l s)).
Proof.
  intros Hf. revert s. induction Hf as [|x rest Hx Hrest IH]; intros s HP; [exact HP|].
  cbn [mapM]. unfold bind, ret.
  pose proof (Hx s HP) as Hx'. destruct (f x s) as [[y|e] s1]; cbn [snd] in *; [|exact Hx'].
  pose proof (IH s1 Hx') as Hrest'.
  destruct (mapM f rest s1) as [[ys|e] s2]; exact Hrest'.
Qed.

Definition preserves (e : element) : Prop :=
  forall base level s, P s -> P (snd (elementConfig e base level s)).

Lemma level_preserves (elements : list element) (base : string) (level : nat) (s : state) :
  Forall preserves elements -> P s -> P (snd (createConfigs elements base level s)).
Proof.
  intros Hall HP. rewrite createConfigs_unfold. unfold bind.
  pose proof (filterM_preserves verifyNoElementErrors elements s
                verifyNoElementErrors_preserves HP) as H1.
  destruct (filterM verifyNoElementErrors elements s) as [[valid|e] s1] eqn:Hfilter;
    cbn [snd] in *; [|exact H1].
  apply filterM_Normal in Hfilter as ->. cbn zeta.
  set (sorted := sortElementsByDescriptorScore (List.filter isElement elements)).
  pose proof (forEachM_preserves verifyNoElementWarnings sorted s1
                verifyNoElementWarnings_preserves H1) as H2.
  destruct (forEachM verifyNoElementWarnings sorted s1) as [[[]|e] s2]; cbn [snd] in *; [|exact H2].
  apply mapM_preserves; [|exact H2].
  apply Forall_forall. intros e He. apply elem_of_sorted_valid in He as [Hin _].
  rewrite Forall_forall in Hall. intros s' HP'. apply (Hall e Hin base level s' HP').
Qed.

Lemma element_preserves (e : element) : preserves e.
Proof.
  induction e as [t|type props IH] using element_tree_ind; intros base level s HP; [exact HP|].
  rewrite elementConfig_unfold. cbn zeta. unfold bind, ret.
  destruct (childrenToArray (children props)) as [|child array].
  - pose proof (P_leaf (Element type props) (path props) (resolvePaths base (path props)) s HP) as Hleaf.
    destruct (registerLeaf (Element type props) (path props) (resolvePaths base (path props)) s)
      as [[[]|e] s1]; exact Hleaf.
  - pose proof (level_preserves (child :: array) (resolvePaths base (path props))
                  (level + 1)%nat s IH HP) as Hlevel.
    destruct (createConfigs (child :: array) (resolvePaths base (path props)) (level + 1)%nat s)
      as [[configs|e] s1]; exact Hlevel.
Qed.

Lemma createConfigs_preserves (elements : list element) (base : string) (level : nat) (s : state) :
  P s -> P (snd (createConfigs elements base level s)).
Proof.
  apply level_preserves, Forall_forall. intros e _. apply element_preserves.
Qed.

End Preservation.

(** *** The registry in development *)

(** No entry of the registry has a descriptor equivalent to that of an
    entry registered before it. *)
Definition registryDistinct (registry : list (element * structure)) : Prop :=
  forall i j earlier later,
    (i < j)%nat -> registry !! i = Some earlier -> registry !! j = Some later ->
    equivalentDescriptors (snd earlier) (snd later) = false.

Lemma registryDistinct_push (registry : list (element * structure)) (entry : element * structure) :
  registryDistinct registry ->
  find (fun seen => equivalentDescriptors (snd seen) (snd entry)) registry = None ->
  registryDistinct (registry ++ [entry]).
Proof.
  intros Hdistinct Hfind i j earlier later Hij Hi Hj.
  apply lookup_snoc_Some in Hj as [[Hj' Hj]|[-> <-]];
    apply lookup_snoc_Some in Hi as [[Hi' Hi]|[-> _]]; try lia.
  - exact (Hdistinct i j earlier later Hij Hi Hj).
  - apply (find_none _ _ Hfind earlier).
    apply list_elem_of_In, list_elem_of_lookup. exists i. exact Hi.
Qed.

Lemma registerLeaf_distinct (element : element) (path : option string) (childBase : string) (s : state) :
  DEV = true ->
  registryDistinct (duplicates s) ->
  registryDistinct (duplicates (snd (registerLeaf element path childBase s))).
Proof.
  intros HDEV Hdistinct. cbv beta iota zeta delta [registerLeaf bind getDuplicates].
  match goal with |- context [find ?f (duplicates s)] =>
    destruct (find f (duplicates s)) as [duplicate|] eqn:Hfind
  end.
  - rewrite HDEV. exact Hdistinct.
  - cbn. apply registryDistinct_push; assumption.
Qed.

(** In development the registry stays free of equivalent entries through
    every call of [createConfigs]. *)
Lemma createConfigs_registryDistinct (elements : list element) (base : string) (level : nat) (s : state) :
  DEV = true ->
  registryDistinct (duplicates s) ->
  registryDistinct (duplicates (snd (createConfigs elements base level s))).
Proof.
  intros HDEV. apply (createConfigs_preserves (fun s => registryDistinct (duplicates s))).
  - intros s' message e H. exact H.
  - intros element path childBase s'. apply registerLeaf_distinct. exact HDEV.
Qed.

(** *** Every childless element is accounted for *)

(** The childless elements that a compile of [e] reaches when it returns:
    an element without children is one, any other element has those of its
    children, and a text node is none and has none. *)
Fixpoint leafCount (e : element) : nat :=
  match e with
  | Text _ => 0
  | Element _ props =>
      match children props with
      | None => 1
      | Some (Single child) => leafCount child
      | Some (Many []) => 1
      | Some (Many array) =>
          (fix total (l : list element) : nat :=
             match l with
             | [] => 0
             | child :: rest => leafCount child + total rest
             end) array
      end
  end%nat.

Lemma leafCount_Element (type : component) (props : props) :
  leafCount (Element type props) =
  match childrenToArray (children props) with
  | [] => 1%nat
  | kids => sum_list_with leafCount kids
  end.
Proof.
  cbn [leafCount]. destruct (children props) as [[child|[|child array]]|]; cbn [childrenToArray].
  - cbn. lia.
  - reflexivity.
  - reflexivity.
  - reflexivity.
Qed.

(** A warning that names two elements: the duplicate-route warning. *)
Definition isDuplicateWarning (w : warning) : bool :=
  match w with
  | ConfigWarn _ _ [_; _] => true
  | _ => false
  end.

Definition duplicateWarnings (ws : list warning) : nat :=
  length (List.filter isDuplicateWarning ws).

(** The entries of the registry and the duplicate-route warnings. *)
Definition accounted (s : state) : nat :=
  (length (duplicates s) + duplicateWarnings (warnings s))%nat.

Lemma duplicateWarnings_snoc (ws : list warning) (w : warning) :
  duplicateWarnings (ws ++ [w]) =
  (duplicateWarnings ws + if isDuplicateWarning w then 1 else 0)%nat.
Proof.
  unfold duplicateWarnings. rewrite List.filter_app, length_app. cbn [List.filter].
  destruct (isDuplicateWarning w); reflexivity.
Qed.

Lemma accounted_warn (n : nat) (s : state) (message : string) (e : element) :
  accounted s = n -> accounted (addWarning s (ConfigWarn message rootElement [e])) = n.
Proof.
  intros <-. unfold accounted, addWarning. cbn [duplicates warnings].
  rewrite duplicateWarnings_snoc. cbn. lia.
Qed.

Lemma accounted_registerLeaf (element : element) (path : option string) (childBase : string) (s : state) :
  exists s', registerLeaf element path childBase s = (Normal tt, s') /\
             accounted s' = S (accounted s).
Proof.
  cbv beta iota zeta delta [registerLeaf bind getDuplicates].
  match goal with |- context [find ?f (duplicates s)] =>
    destruct (find f (duplicates s)) as [duplicate|]
  end.
  - destruct DEV_cases as [->| ->].
    + eexists. split; [reflexivity|]. unfold accounted. cbn [duplicates warnings].
      rewrite duplicateWarnings_snoc. cbn. lia.
    + eexists. split; [reflexivity|]. unfold accounted. cbn [duplicates warnings].
      rewrite length_app. cbn. lia.
  - eexists. split; [reflexivity|]. unfold accounted. cbn [duplicates warnings].
    rewrite length_app. cbn. lia.
Qed.

Definition counts (e : element) : Prop :=
  forall base level s config s',
    elementConfig e base level s = (Normal config, s') ->
    accounted s' = (accounted s + leafCount e)%nat.

Lemma mapM_counts (base : string) (level : nat) (l : list element) (s s' : state)
    (configs : list config) :
  Forall counts l ->
  mapM (fun e => elementConfig e base level) l s = (Normal configs, s') ->
  accounted s' = (accounted s + sum_list_with leafCount l)%nat.
Proof.
  intros Hall. revert s configs. induction Hall as [|e rest He Hrest IH]; intros s configs.
  - cbn. intros [= _ <-]. lia.
  - cbn [mapM sum_list_with]. unfold bind, ret.
    destruct (elementConfig e base level s) as [[config|err] s1] eqn:Hconfig; [|discriminate].
    destruct (mapM (fun e => elementConfig e base level) rest s1) as [[more|err] s2] eqn:Hmore;
      [|discriminate].
    intros [= _ <-]. rewrite (IH _ _ Hmore), (He _ _ _ _ _ Hconfig). lia.
Qed.

Lemma sum_leafCount_valid (elements : list element) :
  sum_list_with leafCount (List.filter isElement elements) = sum_list_with leafCount elements.
Proof.
  induction elements as [|e rest IH]; [reflexivity|].
  destruct e as [t|type props]; cbn [List.filter isElement sum_list_with]; rewrite IH; reflexivity.
Qed.

Lemma level_counts (elements : list element) (base : string) (level : nat) (s s' : state)
    (configs : list config) :
  Forall counts elements ->
  createConfigs elements base level s = (Normal configs, s') ->
  accounted s' = (accounted s + sum_list_with leafCount elements)%nat.
Proof.
  intros Hall. rewrite createConfigs_unfold. unfold bind.
  pose proof (filterM_preserves (fun t => accounted t = accounted s) verifyNoElementErrors
                elements s
                (verifyNoElementErrors_preserves _ (accounted_warn (accounted s))) eq_refl) as H1.
  destruct (filterM verifyNoElementErrors elements s) as [[valid|e] s1] eqn:Hfilter;
    [|discriminate].
  apply filterM_Normal in Hfilter as ->. cbn [snd] in H1. cbn zeta.
  set (sorted := sortElementsByDescriptorScore (List.filter isElement elements)).
  pose proof (forEachM_preserves (fun t => accounted t = accounted s) verifyNoElementWarnings
                sorted s1
                (verifyNoElementWarnings_preserves _ (accounted_warn (accounted s))) H1) as H2.
  destruct (forEachM verifyNoElementWarnings sorted s1) as [[[]|e] s2]; [|discriminate].
  cbn [snd] in H2. intros Hmap.
  assert (Hsorted : Forall counts sorted).
  { apply Forall_forall. intros e He. apply elem_of_sorted_valid in He as [Hin _].
    rewrite Forall_forall in Hall. apply Hall. exact Hin. }
  rewrite (mapM_counts _ _ _ _ _ _ Hsorted Hmap), H2. f_equal.
  unfold sorted, sortElementsByDescriptorScore.
  rewrite (sum_list_with_Permutation_proper leafCount _ _
             (sortByDescriptorScore_Permutation (fun e => e) (List.filter isElement elements))).
  apply sum_leafCount_valid.
Qed.

Lemma element_counts (e : element) : counts e.
Proof.
  induction e as [t|type props IH] using element_tree_ind;
    intros base level s config s'; [discriminate|].
  rewrite elementConfig_unfold, leafCount_Element. cbn zeta. unfold bind, ret.
  destruct (childrenToArray (children props)) as [|child array].
  - destruct (accounted_registerLeaf (Element type props) (path props)
                (resolvePaths base (path props)) s) as (s1 & -> & Hs1).
    intros [= _ <-]. lia.
  - destruct (createConfigs (child :: array) (resolvePaths base (path props)) (level + 1)%nat s)
      as [[configs|err] s1] eqn:Hlevel; [|discriminate].
    intros [= _ <-]. apply (level_counts _ _ _ _ _ _ IH Hlevel).
Qed.

Lemma createConfigs_counts (elements : list element) (base : string) (level : nat)
    (s s' : state) (configs : list config) :
  createConfigs elements base level s = (Normal configs, s') ->
  accounted s' = (accounted s + sum_list_with leafCount elements)%nat.
Proof.
  apply level_counts, Forall_forall. intros e _. apply element_counts.
Qed.

(** *** The nesting level of a compiled node *)

(** [occursAt e tree n]: [e] is the node of [tree] reached by going down
    [n] times to a child. *)
Inductive occursAt (e : element) : element -> nat -> Prop :=
| occursAt_here : occursAt e e 0
| occursAt_below (parent child : element) (n : nat) :
    child ∈ childrenOf parent -> occursAt e child n -> occursAt e parent (S n).

Inductive configOccursAt (c : config) : config -> nat -> Prop :=
| configOccursAt_here : configOccursAt c c 0
| configOccursAt_below (parent child : config) (n : nat) :
    child ∈ configChildren parent -> configOccursAt c child n ->
    configOccursAt c parent (S n).

Definition tracesBackAt (e : element) : Prop :=
  forall base level s config s',
    elementConfig e base level s = (Normal config, s') ->
    forall c n, configOccursAt c config n ->
      exists type props childConfigs,
        occursAt (Element type props) e n /\
        c = configObject type props (level + n) childConfigs.

Lemma level_tracesBackAt (elements : list element) :
  Forall tracesBackAt elements ->
  forall base level s configs s',
    createConfigs elements base level s = (Normal configs, s') ->
    forall c0 c n, c0 ∈ configs -> configOccursAt c c0 n ->
      exists e0 type props childConfigs,
        e0 ∈ elements /\ occursAt (Element type props) e0 n /\
        c = configObject type props (level + n) childConfigs.
Proof.
  intros Hall base level s configs s' Hrun c0 c n Hc0 Hocc.
  pose proof (createConfigs_emitted _ _ _ _ _ _ Hrun) as Hemitted.
  apply list_elem_of_lookup in Hc0 as [i Hi].
  destruct (Forall2_lookup_r _ _ _ _ _ Hemitted Hi) as (e & He & s1 & s2 & Hconfig).
  assert (Hin : e ∈ elements).
  { apply (elem_of_sorted_valid e elements). apply list_elem_of_lookup. exists i. exact He. }
  rewrite Forall_forall in Hall.
  destruct (Hall e Hin base level s1 c0 s2 Hconfig c n Hocc) as (type & props & ch & Ho & Hc).
  exists e, type, props, ch. split; [exact Hin|]. split; assumption.
Qed.

Lemma element_tracesBackAt (e : element) : tracesBackAt e.
Proof.
  induction e as [t|type props IH] using element_tree_ind;
    intros base level s config s' Hrun c n Hocc; [discriminate|].
  rewrite elementConfig_unfold in Hrun. cbn zeta in Hrun. unfold bind, ret in Hrun.
  destruct (childrenToArray (children props)) as [|child array] eqn:Hchildren.
  - destruct (registerLeaf_Normal (Element type props) (path props)
                (resolvePaths base (path props)) s) as (s1 & Hleaf & _).
    rewrite Hleaf in Hrun. injection Hrun as <- <-.
    inversion Hocc as [|parent kid k Hkid Hbelow]; subst.
    + exists type, props, None. split; [constructor|]. rewrite Nat.add_0_r. reflexivity.
    + rewrite configChildren_configObject_None in Hkid.
      apply elem_of_nil in Hkid. contradiction.
  - destruct (createConfigs (child :: array) (resolvePaths base (path props)) (level + 1)%nat s)
      as [[configs|err] s1] eqn:Hlevel; [|discriminate].
    injection Hrun as <- <-.
    inversion Hocc as [|parent kid k Hkid Hbelow]; subst.
    + exists type, props, (Some configs). split; [constructor|].
      rewrite Nat.add_0_r. reflexivity.
    + unfold configObject, configChildren in Hkid.
      destruct (is_Redirect type); cbn in Hkid; [apply elem_of_nil in Hkid; contradiction|].
      destruct (level_tracesBackAt (child :: array) IH _ _ _ _ _ Hlevel kid c k Hkid Hbelow)
        as (e0 & ty & pr & ch & Hin & Ho & Hc).
      exists ty, pr, ch. split.
      * eapply occursAt_below; [|exact Ho]. cbn [childrenOf]. rewrite Hchildren. exact Hin.
      * rewrite Hc. f_equal. lia.
Qed.

Lemma createConfigs_tracesBackAt (elements : list element) (base : string) (level : nat)
    (s s' : state) (configs : list config) (c0 c : config) (n : nat) :
  createConfigs elements base level s = (Normal configs, s') ->
  c0 ∈ configs -> configOccursAt c c0 n ->
  exists e0 type props childConfigs,
    e0 ∈ elements /\ occursAt (Element type props) e0 n /\
    c = configObject type props (level + n) childConfigs.
Proof.
  intros Hrun. eapply level_tracesBackAt; [|exact Hrun].
  apply Forall_forall. intros e _. apply element_tracesBackAt.
Qed.

(** *** The order of the warnings of a level *)

(** The warning of [verifyNoElementErrors] for an element, if any. *)
Definition textWarning (e : element) : option warning :=
  match e with
  | Text t => Some (ConfigWarn (textNodeMessage t) rootElement [Text t])
  | Element _ _ => None
  end.

(** The warning of [verifyNoElementWarnings] for an element, if any. *)
Definition violationWarning (e : element) : option warning :=
  (fun message => ConfigWarn message rootElement [e]) <$> violation e.

Lemma filterM_DEV_warnings (elements : list element) (s : state) :
  DEV = true ->
  filterM verifyNoElementErrors elements s =
  (Normal (List.filter isElement elements),
   State (duplicates s) (warnings s ++ omap textWarning elements)).
Proof.
  intros HDEV. revert s. induction elements as [|e rest IH]; intros s.
  - cbn. rewrite app_nil_r. destruct s; reflexivity.
  - cbn [filterM List.filter omap]. unfold bind, ret. destruct e as [t|type props].
    + rewrite verifyNoElementErrors_Text, HDEV, IH. cbn. rewrite <- app_assoc. reflexivity.
    + rewrite verifyNoElementErrors_Element, IH. reflexivity.
Qed.

Lemma forEachM_DEV_warnings (l : list element) (s : state) :
  DEV = true ->
  Forall (fun e => isElement e = true) l ->
  forEachM verifyNoElementWarnings l s =
  (Normal tt, State (duplicates s) (warnings s ++ omap violationWarning l)).
Proof.
  intros HDEV Hall. revert s. induction Hall as [|e rest He Hrest IH]; intros s.
  - cbn. rewrite app_nil_r. destruct s; reflexivity.
  - destruct e as [t|type props]; [discriminate|].
    cbn [forEachM]. unfold bind. rewrite verifyNoElementWarnings_Element, HDEV.
    change (omap violationWarning (Element type props :: rest))
      with (match violationWarning (Element type props) with
            | Some w => w :: omap violationWarning rest
            | None => omap violationWarning rest
            end).
    unfold violationWarning at 1.
    destruct (violation (Element type props)) as [message|]; rewrite IH; cbn.
    + rewrite <- app_assoc. reflexivity.
    + reflexivity.
Qed.

Lemma createConfigs_DEV_warnings (elements : list element) (base : string)
    (level : nat) (s : state) :
  DEV = true ->
  exists configs s' below,
    createConfigs elements base level s = (Normal configs, s') /\
    warnings s' =
      warnings s ++ omap textWarning elements ++
      omap violationWarning (sortElementsByDescriptorScore (List.filter isElement elements)) ++
      below.
Proof.
  intros HDEV. rewrite createConfigs_unfold. unfold bind.
  rewrite (filterM_DEV_warnings elements s HDEV). cbn zeta.
  set (sorted := sortElementsByDescriptorScore (List.filter isElement elements)).
  assert (Hsorted : Forall (fun e => isElement e = true /\ compilesInDEV e) sorted).
  { apply Forall_forall. intros e He. apply elem_of_sorted_valid in He as [_ Hel].
    split; [exact Hel|]. apply element_compilesInDEV. exact HDEV. }
  rewrite (forEachM_DEV_warnings sorted _ HDEV)
    by (eapply Forall_impl; [exact Hsorted|]; intros e [He _]; exact He).
  cbn [duplicates warnings].
  destruct (mapM_DEV base level sorted
              (State (duplicates s)
                 ((warnings s ++ omap textWarning elements) ++ omap violationWarning sorted))
              Hsorted) as (configs & s3 & -> & [below Hbelow] & _).
  exists configs, s3, below. split; [reflexivity|].
  rewrite Hbelow. cbn [warnings]. rewrite <- !app_assoc. reflexivity.
Qed.

(** X4. In development a level writes its warnings in this order: first the
    text nodes, as declared; then the violations of its elements, in the
    order in which the level emits their configs ([elements.sort] sorts
    [validElements] in place, and [forEach] walks it afterwards), not as
    declared; then whatever the levels below write. *)
Theorem development_warns_in_emitted_order (elements : list element) (base : string)
    (level : nat) (s : state) :
  DEV = true ->
  exists configs s' arranged below,
    createConfigs elements base level s = (Normal configs, s') /\
    arranged ≡ₚ List.filter isElement elements /\
    Forall2 (emittedFor level) arranged configs /\
    warnings s' =
      warnings s ++ omap textWarning elements ++ omap violationWarning arranged ++ below.
Proof.
  intros HDEV.
  destruct (createConfigs_DEV_warnings elements base level s HDEV)
    as (configs & s' & below & Hrun & Hwarnings).
  exists configs, s', (sortElementsByDescriptorScore (List.filter isElement elements)), below.
  split; [exact Hrun|]. split; [apply sortByDescriptorScore_Permutation|].
  split; [|exact Hwarnings].
  eapply Forall2_impl; [exact (createConfigs_emitted _ _ _ _ _ _ Hrun)|].
  intros e c (s1 & s2 & Hc). eapply elementConfig_emitted. exact Hc.
Qed.

End CreateConfig.

(** [createConfig(rootElement, options)], run from the empty state. *)
Definition createConfig (rootElement : option element) (prefix : option string)
  : completion exn (list config) * state :=
  let prefix := default "" prefix in
  ((if DEV && negb (bool_decide (is_Some rootElement))
    then warn (ConsoleWarn noRoutesMessage)
    else ret tt) ;;;
   createConfigs rootElement prefix
     (match rootElement with None => [] | Some element => [element] end) "/" 0%nat)
  (State [] []).

(** ** Facts about [createConfig] *)

Lemma createConfig_Some (root : element) (prefix : option string) :
  createConfig (Some root) prefix =
  createConfigs (Some root) (default "" prefix) [root] "/" 0%nat (State [] []).
Proof.
  unfold createConfig. cbn [is_Some]. rewrite bool_decide_eq_true_2 by (exists root; reflexivity).
  rewrite andb_false_r. reflexivity.
Qed.

(** C3 (as the code has it). For every node of the route tree that violates
    an assertion: in development [createConfig] returns and has reported
    the violation on the warning channel, with the node; outside
    development it raises a [RouterConfigError] to its caller, that of a
    violation in the tree, and has written no warning. *)
Theorem violations_warned_in_development_raised_otherwise (root : element)
    (prefix : option string) (e : element) (message : string) :
  occurs e root ->
  violation e = Some message ->
  if DEV
  then exists configs s,
         createConfig (Some root) prefix = (Normal configs, s) /\
         ConfigWarn message (Some root) [e] ∈ warnings s
  else exists raised s,
         createConfig (Some root) prefix = (Throw (RouterConfigError raised), s) /\
         warnings s = [] /\
         exists e', occurs e' root /\ violation e' = Some raised.
Proof.
  intros Hocc Hv. rewrite createConfig_Some.
  destruct DEV_cases as [HDEV|HDEV]; rewrite HDEV.
  - destruct (createConfigs_DEV (Some root) (default "" prefix) HDEV [root] "/" 0%nat (State [] []))
      as (configs & s & Hrun & _ & Hwarned).
    exists configs, s. split; [exact Hrun|].
    apply (Hwarned root (list_elem_of_here _ _) e message Hocc Hv).
  - destruct (createConfigs_production (Some root) (default "" prefix) HDEV [root] "/" 0%nat (State [] []))
      as [(configs & s & _ & _ & Hclean)|(raised & s & Hrun & Hsame & e0 & e' & Hin & Hocc' & Hv')].
    + rewrite (Hclean root (list_elem_of_here _ _) e Hocc) in Hv. discriminate.
    + exists raised, s. split; [exact Hrun|]. split; [exact Hsame|].
      apply list_elem_of_singleton in Hin. subst e0. exists e'. split; assumption.
Qed.

(** C6 (as the code has it). Every node of a compiled tree whose type is
    [Redirect] has no [loader] and no [children]; its [action] is that of
    the Redirect element it was compiled from, with the built-in action in
    place of [true]. *)
Theorem redirect_nodes_keep_only_their_action (root : element) (prefix : option string)
    (configs : list config) (s : state) (c0 c : config) :
  createConfig (Some root) prefix = (Normal configs, s) ->
  c0 ∈ configs ->
  configOccurs c c0 ->
  typeOf c = Redirect ->
  loaderOf c = VUndefined /\
  childrenOfConfig c = None /\
  exists props,
    occurs (Element Redirect props) root /\
    actionOf c = compiledAction (default "" prefix) props.
Proof.
  rewrite createConfig_Some. intros Hrun Hc0 Hocc Htype.
  destruct (createConfigs_tracesBack _ _ _ _ _ _ _ _ _ _ Hrun Hc0 Hocc)
    as (e0 & type & props & lv & ch & Hin & Ho & ->).
  apply list_elem_of_singleton in Hin. subst e0.
  unfold configObject in *. destruct type as [|name]; cbn [is_Redirect] in *.
  - cbn. split; [reflexivity|]. split; [reflexivity|]. exists props. split; [exact Ho|reflexivity].
  - discriminate.
Qed.

(** ** More facts about [createConfig] *)

Lemma createConfig_None (prefix : option string) :
  createConfig None prefix =
  (Normal [], State [] (if DEV then [ConsoleWarn noRoutesMessage] else [])).
Proof.
  unfold createConfig. rewrite bool_decide_eq_false_2 by (intros [x Hx]; discriminate).
  cbn [negb]. rewrite andb_true_r. destruct DEV_cases as [->| ->]; reflexivity.
Qed.

(** X1. Without a root element [createConfig] returns the empty array, and
    writes the no-routes warning in development only; no compile of a root
    element writes that warning, whatever the tree. *)
Theorem no_routes_warned_only_without_root (rootElement : option element)
    (prefix : option string) :
  (rootElement = None -> fst (createConfig rootElement prefix) = Normal []) /\
  (ConsoleWarn noRoutesMessage ∈ warnings (snd (createConfig rootElement prefix)) <->
   DEV = true /\ rootElement = None).
Proof.
  split.
  - intros ->. rewrite createConfig_None. reflexivity.
  - destruct rootElement as [root|].
    + rewrite createConfig_Some. split; [|intros [_ [=]]].
      intros Hin. exfalso. revert Hin.
      apply (createConfigs_preserves (Some root) (default "" prefix)
               (fun s => ConsoleWarn noRoutesMessage ∉ warnings s)).
      * intros s message e Hs. unfold addWarning. cbn [warnings].
        rewrite elem_of_app, list_elem_of_singleton. intros [Hin|[=]]. exact (Hs Hin).
      * intros element path childBase s Hs.
        cbv beta iota zeta delta [registerLeaf bind getDuplicates].
        match goal with |- context [find ?f (duplicates s)] =>
          destruct (find f (duplicates s)) as [duplicate|]
        end; [destruct DEV_cases as [->| ->]|]; cbn; try exact Hs.
        rewrite elem_of_app, list_elem_of_singleton. intros [Hin|[=]]. exact (Hs Hin).
      * cbn. apply not_elem_of_nil.
    + rewrite createConfig_None. cbn [snd warnings]. destruct DEV_cases as [->| ->].
      * split; [intros _; split; reflexivity|intros _; apply list_elem_of_here].
      * split; [intros Hin; apply elem_of_nil in Hin; contradiction|intros [[=] _]].
Qed.

(** X2. Outside development [createConfig] writes no warning at all, whether
    it returns or raises. *)
Theorem production_writes_no_warning (rootElement : option element) (prefix : option string) :
  DEV = false ->
  warnings (snd (createConfig rootElement prefix)) = [].
Proof.
  intros HDEV. destruct rootElement as [root|].
  - rewrite createConfig_Some.
    destruct (createConfigs_production (Some root) (default "" prefix) HDEV [root] "/" 0%nat
                (State [] []))
      as [(configs & s & -> & Hsame & _)|(raised & s & -> & Hsame & _)]; exact Hsame.
  - rewrite createConfig_None, HDEV. reflexivity.
Qed.

(** X3. Outside development [createConfig] returns exactly for the trees in
    which no node violates an assertion. *)
Theorem production_returns_exactly_for_clean_trees (root : element) (prefix : option string) :
  DEV = false ->
  (exists configs s, createConfig (Some root) prefix = (Normal configs, s)) <->
  (forall e, occurs e root -> violation e = None).
Proof.
  intros HDEV. rewrite createConfig_Some.
  destruct (createConfigs_production (Some root) (default "" prefix) HDEV [root] "/" 0%nat
              (State [] []))
    as [(configs & s & Hrun & _ & Hclean)|(raised & s & Hrun & _ & e0 & e' & Hin & Hocc & Hv)].
  - split; [|intros _; exists configs, s; exact Hrun].
    intros _. apply (Hclean root (list_elem_of_here _ _)).
  - apply list_elem_of_singleton in Hin. subst e0. split.
    + intros (configs & s' & Hrun'). rewrite Hrun in Hrun'. discriminate.
    + intros Hclean. rewrite (Hclean e' Hocc) in Hv. discriminate.
Qed.

(** X5. In development no two entries of the registry of childless routes
    have equivalent descriptors, whatever the tree: an element whose
    descriptor is equivalent to a registered one is reported and not
    registered. *)
Theorem development_registry_has_no_equivalent_entries (rootElement : option element)
    (prefix : option string) :
  DEV = true ->
  registryDistinct (duplicates (snd (createConfig rootElement prefix))).
Proof.
  intros HDEV. destruct rootElement as [root|].
  - rewrite createConfig_Some. apply createConfigs_registryDistinct; [exact HDEV|].
    intros i j earlier later _ Hi. cbn in Hi. rewrite lookup_nil in Hi. discriminate.
  - rewrite createConfig_None. intros i j earlier later _ Hi. cbn in Hi.
    rewrite lookup_nil in Hi. discriminate.
Qed.

(** X6. When [createConfig] returns, every childless element of the tree has
    been registered or reported as a duplicate, once: the entries of the
    registry and the duplicate-route warnings add up to the childless
    elements of the tree, and outside development all of them are in the
    registry. *)
Theorem childless_elements_registered_or_reported (root : element) (prefix : option string)
    (configs : list config) (s : state) :
  createConfig (Some root) prefix = (Normal configs, s) ->
  (length (duplicates s) + duplicateWarnings (warnings s) = leafCount root)%nat /\
  (DEV = false -> length (duplicates s) = leafCount root).
Proof.
  rewrite createConfig_Some. intros Hrun.
  pose proof (createConfigs_counts _ _ _ _ _ _ _ _ Hrun) as Hcount.
  unfold accounted in Hcount. cbn in Hcount.
  split; [lia|]. intros HDEV.
  destruct (createConfigs_production (Some root) (default "" prefix) HDEV [root] "/" 0%nat
              (State [] []))
    as [(configs' & s' & Hrun' & Hsame & _)|(raised & s' & Hrun' & _)];
    rewrite Hrun in Hrun'; [|discriminate].
  injection Hrun' as _ <-. cbn in Hsame. rewrite Hsame in Hcount. cbn in Hcount. lia.
Qed.

(** X7. A node [n] levels down in a compiled tree is the object returned for
    an element [n] levels down in the route tree, at level [n]: the
    built-in loader of a route that declares [loader = true] is created
    with the depth of the route. *)
Theorem compiled_node_carries_its_depth (root : element) (prefix : option string)
    (configs : list config) (s : state) (c0 c : config) (n : nat) :
  createConfig (Some root) prefix = (Normal configs, s) ->
  c0 ∈ configs ->
  configOccursAt c c0 n ->
  exists type props childConfigs,
    occursAt (Element type props) root n /\
    c = configObject (default "" prefix) type props n childConfigs /\
    (is_Redirect type = false -> is_true (loader props) = true ->
     loaderOf c = VFun (ConfigLoader (default "" prefix) n)).
Proof.
  rewrite createConfig_Some. intros Hrun Hc0 Hocc.
  destruct (createConfigs_tracesBackAt _ _ _ _ _ _ _ _ _ _ _ Hrun Hc0 Hocc)
    as (e0 & type & props & ch & Hin & Ho & ->).
  apply list_elem_of_singleton in Hin. subst e0.
  exists type, props, ch. split; [exact Ho|]. split; [reflexivity|].
  intros Htype Hloader. unfold configObject, compiledLoader. rewrite Htype, Hloader.
  reflexivity.
Qed.

End Compiler.

(** ** The root check *)

(** C4 (what the code does). The check named
    [assertElementWithoutChildrenIsNotRoot] tests [children && root]: it
    passes a root element without children, and it throws the error
    "There is a root route without child routes" for a root element that
    has a child or an array of children. *)
Theorem root_check_is_inverted (type : component) (path : option string)
    (to status loader action : value) (childType : component) (childProps : props)
    (array : list element) :
  assertElementWithoutChildrenIsNotRoot
    (Element type (Props path (VBool true) to status loader action None)) = passed /\
  assertElementWithoutChildrenIsNotRoot
    (Element type (Props path (VBool true) to status loader action
                     (Some (Single (Element childType childProps))))) =
    Throw (RouterConfigError rootMessage) /\
  assertElementWithoutChildrenIsNotRoot
    (Element type (Props path (VBool true) to status loader action (Some (Many array)))) =
    Throw (RouterConfigError rootMessage).
Proof. repeat split. Qed.

(** ** Worked examples *)

(** Stand-ins for the functions of [path.js] and [descriptor.js], to run
    the compiler on concrete trees: paths are joined with a slash, the hash
    is what follows the first [#], a descriptor's structure is its path,
    two structures are equivalent when they are equal, and a literal path
    scores above a parameter, which scores above a splat or no path. *)
Definition sampleResolvePaths (base : string) (path : option string) : string :=
  match path with
  | None => base
  | Some p => base +:+ p +:+ "/"
  end.

Definition sampleJoinPaths (a b : string) : string := a +:+ b.

Fixpoint afterHash (s : string) : string :=
  match s with
  | EmptyString => ""
  | String c rest => if Ascii.eqb c (Ascii.ascii_of_nat 35) then rest else afterHash rest
  end.

Definition samplePathParts (path : string) : list string := [path; ""; afterHash path].

Definition sampleScore (path : option string) : Z :=
  match path with
  | None => 0
  | Some (String c _) => if Ascii.eqb c (Ascii.ascii_of_nat 58) then 1 else if Ascii.eqb c (Ascii.ascii_of_nat 42) then 0 else 2
  | Some EmptyString => 2
  end.

(** The properties of [Object.prototype] in a standard environment: each
    function converts to its source text, and [__proto__], the prototype
    itself, to the text of an object. *)
Definition nativeFunction (name : string) : string :=
  "function " +:+ name +:+ "() { [native code] }".

Definition samplePrototype (key : string) : option string :=
  if String.eqb key "constructor" then Some (nativeFunction "Object")
  else if String.eqb key "__proto__" then Some "[object Object]"
  else if existsb (String.eqb key)
            ["toString"; "toLocaleString"; "valueOf"; "hasOwnProperty"; "isPrototypeOf";
             "propertyIsEnumerable"; "__defineGetter__"; "__defineSetter__";
             "__lookupGetter__"; "__lookupSetter__"]
       then Some (nativeFunction key)
  else None.

(** [createConfig(root)] with the stand-ins. *)
Definition compile (DEV : bool) (root : element) : completion exn (list config) * state string :=
  createConfig sampleResolvePaths sampleJoinPaths samplePathParts string
    (fun path => path) String.eqb sampleScore samplePrototype DEV (Some root) None.

Definition route (type : component) (path : option string) (children : option (children_of element))
  : element :=
  Element type (Props path VUndefined VUndefined VUndefined VUndefined VUndefined children).

Definition page (name : string) (path : string) : element :=
  route (Component name) (Some path) None.

(** A Redirect that declares a loader, below a route. *)
Definition redirectWithLoader : element :=
  Element Redirect
    (Props (Some "old") VUndefined (VStr "/new") VUndefined (VFun (UserFn "load")) VUndefined None).

Definition treeWithViolations : element :=
  route (Component "App") None (Some (Many [Text "hello"; redirectWithLoader; page "Home" "home"])).

(** A Redirect that declares an action, below a route. *)
Definition redirectWithAction : element :=
  Element Redirect
    (Props (Some "old") VUndefined (VStr "/new") VUndefined VUndefined (VFun (UserFn "submit")) None).

Definition treeWithRedirect : element :=
  route (Component "App") None (Some (Single redirectWithAction)).

(** Two childless routes with the same path, below a route. *)
Definition treeWithTwins : element :=
  route (Component "App") None (Some (Many [page "First" "a"; page "Second" "a"])).

(** A root route without children, and one with a child. *)
Definition rootOf (children : option (children_of element)) : element :=
  Element (Component "App") (Props None (VBool true) VUndefined VUndefined VUndefined VUndefined children).

(** *** The root check on concrete trees *)

Example childless_root_compiles :
  compile false (rootOf None) =
  (Normal [DefaultConfig (Component "App") None (VBool true) VUndefined VUndefined VUndefined None],
   State string [(rootOf None, "/*")] []).
Proof. vm_compute. reflexivity. Qed.

Example root_with_child_raises :
  compile false (rootOf (Some (Single (page "Home" "home")))) =
  (Throw (RouterConfigError rootMessage), State string [] []).
Proof. vm_compute. reflexivity. Qed.

Example root_with_child_warned_in_development :
  warnings string (snd (compile true (rootOf (Some (Single (page "Home" "home")))))) =
  [ConfigWarn rootMessage (Some (rootOf (Some (Single (page "Home" "home")))))
     [rootOf (Some (Single (page "Home" "home")))]].
Proof. vm_compute. reflexivity. Qed.

(** *** Violations: development warns, production raises *)

(** Against C3 as stated: outside development (in production) the
    Redirect with a loader makes [createConfig] raise, with nothing on the
    warning channel; in development the same tree compiles and the
    violation is a warning. *)
Lemma production_raises_and_development_warns :
  compile false (route (Component "App") None (Some (Single redirectWithLoader))) =
    (Throw (RouterConfigError redirectLoaderMessage), State string [] []) /\
  fst (compile true (route (Component "App") None (Some (Single redirectWithLoader)))) =
    Normal [DefaultConfig (Component "App") None VUndefined VUndefined VUndefined VUndefined
              (Some [RedirectConfig Redirect (Some "old") (VStr "/new") VUndefined VUndefined])] /\
  warnings string (snd (compile true (route (Component "App") None (Some (Single redirectWithLoader))))) =
    [ConfigWarn redirectLoaderMessage
       (Some (route (Component "App") None (Some (Single redirectWithLoader))))
       [redirectWithLoader]].
Proof. repeat split; vm_compute; reflexivity. Qed.

Lemma violations_witness :
  (occurs (Text "hello") treeWithViolations /\
   violation samplePathParts (Text "hello") = Some (textNodeMessage "hello") /\
   exists configs s,
     compile true treeWithViolations = (Normal configs, s) /\
     ConfigWarn (textNodeMessage "hello") (Some treeWithViolations) [Text "hello"]
       ∈ warnings string s) /\
  (occurs redirectWithLoader treeWithViolations /\
   violation samplePathParts redirectWithLoader = Some redirectLoaderMessage /\
   exists raised s,
     compile false treeWithViolations = (Throw (RouterConfigError raised), s) /\
     warnings string s = [] /\
     exists e', occurs e' treeWithViolations /\ violation samplePathParts e' = Some raised).
Proof.
  assert (Htext : occurs (Text "hello") treeWithViolations).
  { eapply occurs_below; [|constructor]. cbn. apply list_elem_of_here. }
  assert (Hredirect : occurs redirectWithLoader treeWithViolations).
  { eapply occurs_below; [|constructor]. cbn. apply list_elem_of_further, list_elem_of_here. }
  split.
  - split; [exact Htext|]. split; [reflexivity|].
    exact (violations_warned_in_development_raised_otherwise
             sampleResolvePaths sampleJoinPaths samplePathParts string
             (fun path => path) String.eqb sampleScore samplePrototype true
             treeWithViolations None (Text "hello") (textNodeMessage "hello") Htext eq_refl).
  - split; [exact Hredirect|]. split; [reflexivity|].
    exact (violations_warned_in_development_raised_otherwise
             sampleResolvePaths sampleJoinPaths samplePathParts string
             (fun path => path) String.eqb sampleScore samplePrototype false
             treeWithViolations None redirectWithLoader redirectLoaderMessage Hredirect eq_refl).
Defined.

(** *** A Redirect node with an action *)

(** Against C6 as stated: the config compiled from a Redirect element that
    declares an action carries that action. *)
Lemma redirect_config_carries_action :
  fst (compile true treeWithRedirect) =
    Normal [DefaultConfig (Component "App") None VUndefined VUndefined VUndefined VUndefined
              (Some [RedirectConfig Redirect (Some "old") (VStr "/new") VUndefined
                       (VFun (UserFn "submit"))])] /\
  warnings string (snd (compile true treeWithRedirect)) = [] /\
  actionOf (RedirectConfig Redirect (Some "old") (VStr "/new") VUndefined (VFun (UserFn "submit")))
    = VFun (UserFn "submit").
Proof. repeat split; vm_compute; reflexivity. Qed.

Lemma redirect_nodes_witness :
  let node := RedirectConfig Redirect (Some "old") (VStr "/new") VUndefined (VFun (UserFn "submit")) in
  let top := DefaultConfig (Component "App") None VUndefined VUndefined VUndefined VUndefined
               (Some [node]) in
  compile true treeWithRedirect = (Normal [top], snd (compile true treeWithRedirect)) /\
  top ∈ [top] /\
  configOccurs node top /\
  typeOf node = Redirect /\
  loaderOf node = VUndefined /\
  childrenOfConfig node = None /\
  exists props,
    occurs (Element Redirect props) treeWithRedirect /\
    actionOf node = compiledAction "" props.
Proof.
  intros node top.
  assert (Hrun : compile true treeWithRedirect = (Normal [top], snd (compile true treeWithRedirect)))
    by (vm_compute; reflexivity).
  assert (Hocc : configOccurs node top).
  { eapply configOccurs_below; [|constructor]. cbn. apply list_elem_of_here. }
  split; [exact Hrun|]. split; [apply list_elem_of_here|].
  split; [exact Hocc|]. split; [reflexivity|].
  exact (redirect_nodes_keep_only_their_action
           sampleResolvePaths sampleJoinPaths samplePathParts string
           (fun path => path) String.eqb sampleScore samplePrototype true
           treeWithRedirect None [top] _ top node Hrun (list_elem_of_here _ _) Hocc eq_refl).
Defined.

(** *** Two routes with the same path *)

(** Three childless routes with the same path, below a route. *)
Definition treeWithTriplets : element :=
  route (Component "App") None
    (Some (Many [page "First" "a"; page "Second" "a"; page "Third" "a"])).

(** Against C7 as stated: outside development both routes are compiled
    and registered, and no warning is written; and in development a third
    route with the same path is flagged against the first, the one that is
    registered, so that no warning names the second and the third. *)
Lemma duplicate_warning_needs_development :
  compile false treeWithTwins =
  (Normal [DefaultConfig (Component "App") None VUndefined VUndefined VUndefined VUndefined
             (Some [DefaultConfig (Component "First") (Some "a") VUndefined VUndefined VUndefined VUndefined None;
                    DefaultConfig (Component "Second") (Some "a") VUndefined VUndefined VUndefined VUndefined None])],
   State string [(page "First" "a", "/a/"); (page "Second" "a", "/a/")] []) /\
  snd (compile true treeWithTriplets) =
  State string [(page "First" "a", "/a/")]
    [ConfigWarn duplicateMessage (Some treeWithTriplets) [page "First" "a"; page "Second" "a"];
     ConfigWarn duplicateMessage (Some treeWithTriplets) [page "First" "a"; page "Third" "a"]].
Proof. split; vm_compute; reflexivity. Qed.

Example development_flags_second_twin :
  snd (compile true treeWithTwins) =
  State string [(page "First" "a", "/a/")]
    [ConfigWarn duplicateMessage (Some treeWithTwins) [page "First" "a"; page "Second" "a"]].
Proof. vm_compute. reflexivity. Qed.

Lemma duplicate_leaf_witness :
  let seen := State string [(page "First" "a", "/a/")] [] in
  let second := Props (Some "a") VUndefined VUndefined VUndefined VUndefined VUndefined None in
  true = true /\
  childrenToArray (children second) = [] /\
  find (fun seen => String.eqb (snd seen)
                      (leafStructure sampleResolvePaths sampleJoinPaths string (fun path => path)
                         "/" (path second)))
       (duplicates string seen) = Some (page "First" "a", "/a/") /\
  elementConfig sampleResolvePaths sampleJoinPaths samplePathParts string
      (fun path => path) String.eqb sampleScore samplePrototype true (Some treeWithTwins) ""
      (Element (Component "Second") second) "/" 1%nat seen =
    (Normal (DefaultConfig (Component "Second") (Some "a") VUndefined VUndefined VUndefined VUndefined None),
     State string [(page "First" "a", "/a/")]
       [ConfigWarn duplicateMessage (Some treeWithTwins) [page "First" "a"; page "Second" "a"]]).
Proof.
  intros seen second. split; [reflexivity|]. split; [reflexivity|]. split; [reflexivity|].
  exact (proj1 (duplicate_leaf_flagged_in_development
           sampleResolvePaths sampleJoinPaths samplePathParts string
           (fun path => path) String.eqb sampleScore samplePrototype true (Some treeWithTwins) ""
           (Component "Second") second "/" 1%nat seen (page "First" "a", "/a/")
           eq_refl eq_refl eq_refl)).
Defined.

(** *** The order of a sibling set *)

Example siblings_sorted_by_score :
  fst (compile true
         (route (Component "App") None
            (Some (Many [page "Splat" "*"; page "User" ":id"; page "About" "about";
                         page "Other" ":name"; page "Home" "home"])))) =
  Normal [DefaultConfig (Component "App") None VUndefined VUndefined VUndefined VUndefined
            (Some [DefaultConfig (Component "About") (Some "about") VUndefined VUndefined VUndefined VUndefined None;
                   DefaultConfig (Component "Home") (Some "home") VUndefined VUndefined VUndefined VUndefined None;
                   DefaultConfig (Component "User") (Some ":id") VUndefined VUndefined VUndefined VUndefined None;
                   DefaultConfig (Component "Other") (Some ":name") VUndefined VUndefined VUndefined VUndefined None;
                   DefaultConfig (Component "Splat") (Some "*") VUndefined VUndefined VUndefined VUndefined None])].
Proof. vm_compute. reflexivity. Qed.

(** A set with no inherited key and no shared key is emitted by
    descending descriptor score. *)
Lemma sorted_siblings_witness :
  let elements :=
    [page "Splat" "*"; page "User" ":id"; page "About" "about"; page "Other" ":name"] in
  let paths := map elementPath (List.filter isElement elements) in
  let configs :=
    [DefaultConfig (Component "About") (Some "about") VUndefined VUndefined VUndefined VUndefined None;
     DefaultConfig (Component "User") (Some ":id") VUndefined VUndefined VUndefined VUndefined None;
     DefaultConfig (Component "Other") (Some ":name") VUndefined VUndefined VUndefined VUndefined None;
     DefaultConfig (Component "Splat") (Some "*") VUndefined VUndefined VUndefined VUndefined None] in
  let run :=
    createConfigs sampleResolvePaths sampleJoinPaths samplePathParts string
      (fun path => path) String.eqb sampleScore samplePrototype true None "" elements "/" 1%nat
      (State string [] []) in
  (forall name, Some name ∈ paths -> samplePrototype name = None) /\
  (None ∈ paths -> samplePrototype "undefined" = None /\ Some "undefined" ∉ paths) /\
  run = (Normal configs, snd run) /\
  StronglySorted (fun a b => sampleScore (pathOf b) <= sampleScore (pathOf a)) configs /\
  exists arranged,
    Forall2 (emittedFor "" 1%nat) arranged configs /\
    arranged ≡ₚ List.filter isElement elements /\
    forall v,
      List.filter (fun e => sampleScore (elementPath e) =? v) arranged =
      List.filter (fun e => sampleScore (elementPath e) =? v) (List.filter isElement elements).
Proof.
  intros elements paths configs run.
  assert (Hnames : forall name, Some name ∈ paths -> samplePrototype name = None).
  { intros name Hin. cbn in Hin.
    repeat (apply elem_of_cons in Hin as [Hin|Hin]; [injection Hin as ->; reflexivity|]).
    apply elem_of_nil in Hin. contradiction. }
  assert (Hpathless : None ∈ paths ->
            samplePrototype "undefined" = None /\ Some "undefined" ∉ paths).
  { intros Hin. cbn in Hin.
    repeat (apply elem_of_cons in Hin as [Hin|Hin]; [discriminate Hin|]).
    apply elem_of_nil in Hin. contradiction. }
  assert (Hrun : run = (Normal configs, snd run)) by (vm_compute; reflexivity).
  split; [exact Hnames|]. split; [exact Hpathless|]. split; [exact Hrun|].
  exact (emitted_children_sorted_stable
           sampleResolvePaths sampleJoinPaths samplePathParts string
           (fun path => path) String.eqb sampleScore samplePrototype true None ""
           elements "/" 1%nat (State string [] []) (snd run) configs Hnames Hpathless Hrun).
Defined.

(** *** Siblings that the sort does not order by score

    A literal path scores above a parameter, and above no path; yet the
    literal paths [constructor] and [undefined] are emitted where they
    were declared, after a parameter and after a route without a path. *)
Example inherited_key_not_ordered_by_score :
  fst (compile true
         (route (Component "App") None
            (Some (Many [page "User" ":id"; page "Ctor" "constructor"])))) =
  Normal [DefaultConfig (Component "App") None VUndefined VUndefined VUndefined VUndefined
            (Some [DefaultConfig (Component "User") (Some ":id") VUndefined VUndefined VUndefined VUndefined None;
                   DefaultConfig (Component "Ctor") (Some "constructor") VUndefined VUndefined VUndefined VUndefined None])] /\
  sampleScore (Some ":id") < sampleScore (Some "constructor") /\
  fst (compile true
         (route (Component "App") None
            (Some (Many [page "User" ":id"; page "About" "about"])))) =
  Normal [DefaultConfig (Component "App") None VUndefined VUndefined VUndefined VUndefined
            (Some [DefaultConfig (Component "About") (Some "about") VUndefined VUndefined VUndefined VUndefined None;
                   DefaultConfig (Component "User") (Some ":id") VUndefined VUndefined VUndefined VUndefined None])].
Proof. repeat split; vm_compute; reflexivity. Qed.

Example shared_key_not_ordered_by_score :
  fst (compile true
         (route (Component "App") None
            (Some (Many [route (Component "Fallback") None None; page "Undefined" "undefined";
                         page "User" ":id"])))) =
  Normal [DefaultConfig (Component "App") None VUndefined VUndefined VUndefined VUndefined
            (Some [DefaultConfig (Component "User") (Some ":id") VUndefined VUndefined VUndefined VUndefined None;
                   DefaultConfig (Component "Fallback") None VUndefined VUndefined VUndefined VUndefined None;
                   DefaultConfig (Component "Undefined") (Some "undefined") VUndefined VUndefined VUndefined VUndefined None])] /\
  map sampleScore [Some ":id"; None; Some "undefined"] = [1; 0; 2].
Proof. split; vm_compute; reflexivity. Qed.

(** Two paths that both name an inherited property are compared as the
    texts of the inherited functions. *)
Example inherited_keys_compared_as_text :
  fst (compile true
         (route (Component "App") None
            (Some (Many [page "Ctor" "constructor"; page "Text" "toString"])))) =
  Normal [DefaultConfig (Component "App") None VUndefined VUndefined VUndefined VUndefined
            (Some [DefaultConfig (Component "Text") (Some "toString") VUndefined VUndefined VUndefined VUndefined None;
                   DefaultConfig (Component "Ctor") (Some "constructor") VUndefined VUndefined VUndefined VUndefined None])].
Proof. vm_compute. reflexivity. Qed.

(** *** The built-in loader *)

(** A stand-in for the conversion of a header to a number: a string of
    decimal digits is positive when one of them is not [0]. *)
Fixpoint sampleIsPositive (s : string) : bool :=
  match s with
  | EmptyString => false
  | String c rest => negb (Ascii.eqb c (Ascii.ascii_of_nat 48)) || sampleIsPositive rest
  end.

Definition usersResponse : response :=
  Response true (Some "application/json; charset=utf-8") (Some "17") "users".

(** A world in which the URL parses, the server answers with JSON, and
    the body decodes. *)
Definition sampleWorld : Async.env :=
  {| Async.promiseOutcome := fun _ => Normal VUndefined;
     Async.callOutcome := fun _ _ => Normal (VResponse usersResponse);
     Async.newURL := fun _ => Normal (Async.URL "/users" "?page=2");
     Async.fetch := fun _ _ => Normal usersResponse;
     Async.json := fun _ => Normal (VObj [("users", VNum 2)]);
     Async.text := fun _ => Normal (VStr "users");
     Async.createData := fun _ => Normal (VObj [("users", VNum 2)]) |}.










(** ** The emitted tree does not depend on the build *)

Section TwoBuilds.

Variables resolvePaths1 resolvePaths2 : string -> option string -> string.
Variables joinPaths1 joinPaths2 : string -> string -> string.
Variables pathParts1 pathParts2 : string -> list string.
Variables structure1 structure2 : Type.
Variable descriptorStructure1 : string -> structure1.
Variable descriptorStructure2 : string -> structure2.
Variable equivalentDescriptors1 : structure1 -> structure1 -> bool.
Variable equivalentDescriptors2 : structure2 -> structure2 -> bool.
Variable descriptorScore : option string -> Z.
Variable objectPrototype : string -> option string.
Variables DEV1 DEV2 : bool.
Variables rootElement1 rootElement2 : option element.
Variable prefix : string.

Local Abbreviation elementConfig1 :=
  (elementConfig resolvePaths1 joinPaths1 pathParts1 structure1 descriptorStructure1
     equivalentDescriptors1 descriptorScore objectPrototype DEV1 rootElement1 prefix).
Local Abbreviation elementConfig2 :=
  (elementConfig resolvePaths2 joinPaths2 pathParts2 structure2 descriptorStructure2
     equivalentDescriptors2 descriptorScore objectPrototype DEV2 rootElement2 prefix).
Local Abbreviation createConfigs1 :=
  (createConfigs resolvePaths1 joinPaths1 pathParts1 structure1 descriptorStructure1
     equivalentDescriptors1 descriptorScore objectPrototype DEV1 rootElement1 prefix).
Local Abbreviation createConfigs2 :=
  (createConfigs resolvePaths2 joinPaths2 pathParts2 structure2 descriptorStructure2
     equivalentDescriptors2 descriptorScore objectPrototype DEV2 rootElement2 prefix).

(** Two returning runs of the callback on [e] at one level return the
    same object. *)
Definition sameConfig (e : element) : Prop :=
  forall base1 base2 level s1 s2 c1 c2 s1' s2',
    elementConfig1 e base1 level s1 = (Normal c1, s1') ->
    elementConfig2 e base2 level s2 = (Normal c2, s2') ->
    c1 = c2.

Lemma Forall2_functional {A B : Type} (R1 R2 : A -> B -> Prop) (l : list A) (l1 l2 : list B) :
  Forall (fun a => forall b1 b2, R1 a b1 -> R2 a b2 -> b1 = b2) l ->
  Forall2 R1 l l1 -> Forall2 R2 l l2 -> l1 = l2.
Proof.
  intros Hall H1. revert l2. induction H1 as [|a b1 l l1 Hb1 H1 IH]; intros l2 H2.
  - inversion H2. reflexivity.
  - inversion H2 as [|a' b2 l' l2' Hb2 H2']; subst. inversion Hall as [|a' l' Ha Hl]; subst.
    f_equal; [exact (Ha b1 b2 Hb1 Hb2)|exact (IH Hl l2' H2')].
Qed.

Lemma level_sameConfig (elements : list element) :
  Forall sameConfig elements ->
  forall base1 base2 level s1 s2 configs1 configs2 s1' s2',
    createConfigs1 elements base1 level s1 = (Normal configs1, s1') ->
    createConfigs2 elements base2 level s2 = (Normal configs2, s2') ->
    configs1 = configs2.
Proof.
  intros Hall base1 base2 level s1 s2 configs1 configs2 s1' s2' Hrun1 Hrun2.
  apply createConfigs_emitted in Hrun1. apply createConfigs_emitted in Hrun2.
  refine (Forall2_functional _ _ _ _ _ _ Hrun1 Hrun2).
  apply Forall_forall. intros e He c1 c2 (t1 & t1' & H1) (t2 & t2' & H2).
  apply elem_of_sorted_valid in He as [Hin _].
  rewrite Forall_forall in Hall. exact (Hall e Hin _ _ _ _ _ _ _ _ _ H1 H2).
Qed.

Lemma element_sameConfig (e : element) : sameConfig e.
Proof.
  induction e as [t|type props IH] using element_tree_ind;
    intros base1 base2 level s1 s2 c1 c2 s1' s2' Hrun1 Hrun2; [discriminate|].
  rewrite elementConfig_unfold in Hrun1, Hrun2. cbn zeta in Hrun1, Hrun2.
  unfold bind, ret in Hrun1, Hrun2.
  destruct (childrenToArray (children props)) as [|child array].
  - destruct (registerLeaf_Normal joinPaths1 structure1 descriptorStructure1
                equivalentDescriptors1 DEV1 rootElement1 (Element type props) (path props)
                (resolvePaths1 base1 (path props)) s1) as (t1 & Hleaf1 & _).
    destruct (registerLeaf_Normal joinPaths2 structure2 descriptorStructure2
                equivalentDescriptors2 DEV2 rootElement2 (Element type props) (path props)
                (resolvePaths2 base2 (path props)) s2) as (t2 & Hleaf2 & _).
    rewrite Hleaf1 in Hrun1. rewrite Hleaf2 in Hrun2. congruence.
  - destruct (createConfigs1 (child :: array) _ _ s1) as [[configs1|err] t1] eqn:Hlevel1;
      [|discriminate].
    destruct (createConfigs2 (child :: array) _ _ s2) as [[configs2|err] t2] eqn:Hlevel2;
      [|discriminate].
    rewrite (level_sameConfig _ IH _ _ _ _ _ _ _ _ _ Hlevel1 Hlevel2) in Hrun1. congruence.
Qed.

Lemma createConfigs_sameConfig (elements : list element) (base1 base2 : string) (level : nat)
    (s1 s1' : state structure1) (s2 s2' : state structure2) (configs1 configs2 : list config) :
  createConfigs1 elements base1 level s1 = (Normal configs1, s1') ->
  createConfigs2 elements base2 level s2 = (Normal configs2, s2') ->
  configs1 = configs2.
Proof.
  apply level_sameConfig, Forall_forall. intros e _. apply element_sameConfig.
Qed.

End TwoBuilds.

(** X8. Two compiles of one route tree with one prefix, in one environment,
    that both return, return the same tree, whatever the build mode of
    either (development or not) and whatever [resolvePaths], [joinPaths],
    [pathParts], [descriptorStructure] and [equivalentDescriptors] are in
    either: of the imported functions only [descriptorScore] enters the
    emitted tree, and the warnings and the duplicate registry never do. *)
Theorem emitted_tree_independent_of_build
    (resolvePaths1 resolvePaths2 : string -> option string -> string)
    (joinPaths1 joinPaths2 : string -> string -> string)
    (pathParts1 pathParts2 : string -> list string)
    (structure1 structure2 : Type)
    (descriptorStructure1 : string -> structure1) (descriptorStructure2 : string -> structure2)
    (equivalentDescriptors1 : structure1 -> structure1 -> bool)
    (equivalentDescriptors2 : structure2 -> structure2 -> bool)
    (descriptorScore : option string -> Z) (objectPrototype : string -> option string)
    (DEV1 DEV2 : bool)
    (root : element) (prefix : option string)
    (configs1 configs2 : list config) (s1 : state structure1) (s2 : state structure2) :
  createConfig resolvePaths1 joinPaths1 pathParts1 structure1 descriptorStructure1
    equivalentDescriptors1 descriptorScore objectPrototype DEV1 (Some root) prefix = (Normal configs1, s1) ->
  createConfig resolvePaths2 joinPaths2 pathParts2 structure2 descriptorStructure2
    equivalentDescriptors2 descriptorScore objectPrototype DEV2 (Some root) prefix = (Normal configs2, s2) ->
  configs1 = configs2.
Proof.
  rewrite !createConfig_Some. apply createConfigs_sameConfig.
Qed.

(** *** Worked examples for the facts above *)

(** A route two levels down that asks for the built-in loader. *)
Definition usersPage : element :=
  Element (Component "Users")
    (Props (Some "users") VUndefined VUndefined VUndefined (VBool true) VUndefined None).

Definition treeWithLoader : element :=
  route (Component "App") None
    (Some (Single (route (Component "Admin") (Some "admin") (Some (Single usersPage))))).

Lemma emitted_tree_witness :
  exists configs s1 s2,
    compile true treeWithTwins = (Normal configs, s1) /\
    compile false treeWithTwins = (Normal configs, s2) /\
    s1 <> s2.
Proof.
  assert (H1 : compile true treeWithTwins =
               (fst (compile true treeWithTwins), snd (compile true treeWithTwins)))
    by (vm_compute; reflexivity).
  assert (H2 : compile false treeWithTwins =
               (fst (compile false treeWithTwins), snd (compile false treeWithTwins)))
    by (vm_compute; reflexivity).
  destruct (fst (compile true treeWithTwins)) as [configs1|e1] eqn:Hfst1; [|discriminate Hfst1].
  destruct (fst (compile false treeWithTwins)) as [configs2|e2] eqn:Hfst2; [|discriminate Hfst2].
  exists configs1, (snd (compile true treeWithTwins)), (snd (compile false treeWithTwins)).
  split; [exact H1|]. split; [|vm_compute; discriminate].
  rewrite (emitted_tree_independent_of_build
             sampleResolvePaths sampleResolvePaths sampleJoinPaths sampleJoinPaths
             samplePathParts samplePathParts string string (fun path => path) (fun path => path)
             String.eqb String.eqb sampleScore samplePrototype true false treeWithTwins None
             configs1 configs2 _ _ H1 H2).
  exact H2.
Defined.

Lemma production_silence_witness :
  false = false /\ warnings string (snd (compile false treeWithViolations)) = [].
Proof.
  split; [reflexivity|].
  exact (production_writes_no_warning
           sampleResolvePaths sampleJoinPaths samplePathParts string
           (fun path => path) String.eqb sampleScore samplePrototype false (Some treeWithViolations) None
           eq_refl).
Defined.

Lemma production_clean_tree_witness :
  false = false /\
  ((exists configs s, compile false treeWithTwins = (Normal configs, s)) <->
   (forall e, occurs e treeWithTwins -> violation samplePathParts e = None)).
Proof.
  split; [reflexivity|].
  exact (production_returns_exactly_for_clean_trees
           sampleResolvePaths sampleJoinPaths samplePathParts string
           (fun path => path) String.eqb sampleScore samplePrototype false treeWithTwins None eq_refl).
Defined.

Lemma development_registry_witness :
  true = true /\
  duplicates string (snd (compile true treeWithTriplets)) = [(page "First" "a", "/a/")] /\
  registryDistinct string String.eqb (duplicates string (snd (compile true treeWithTriplets))).
Proof.
  split; [reflexivity|]. split; [vm_compute; reflexivity|].
  exact (development_registry_has_no_equivalent_entries
           sampleResolvePaths sampleJoinPaths samplePathParts string
           (fun path => path) String.eqb sampleScore samplePrototype true (Some treeWithTriplets) None eq_refl).
Defined.

(** The three childless routes of [treeWithTriplets]: one registered, two
    reported. *)
Lemma childless_elements_witness :
  let configs :=
    [DefaultConfig (Component "App") None VUndefined VUndefined VUndefined VUndefined
       (Some [DefaultConfig (Component "First") (Some "a") VUndefined VUndefined VUndefined VUndefined None;
              DefaultConfig (Component "Second") (Some "a") VUndefined VUndefined VUndefined VUndefined None;
              DefaultConfig (Component "Third") (Some "a") VUndefined VUndefined VUndefined VUndefined None])] in
  let s := snd (compile true treeWithTriplets) in
  compile true treeWithTriplets = (Normal configs, s) /\
  length (duplicates string s) = 1%nat /\
  duplicateWarnings (warnings string s) = 2%nat /\
  (length (duplicates string s) + duplicateWarnings (warnings string s) =
   leafCount treeWithTriplets)%nat.
Proof.
  intros configs s.
  assert (Hrun : compile true treeWithTriplets = (Normal configs, s)) by (vm_compute; reflexivity).
  split; [exact Hrun|]. split; [vm_compute; reflexivity|]. split; [vm_compute; reflexivity|].
  exact (proj1 (childless_elements_registered_or_reported
                  sampleResolvePaths sampleJoinPaths samplePathParts string
                  (fun path => path) String.eqb sampleScore samplePrototype true treeWithTriplets None
                  configs s Hrun)).
Defined.

(** The built-in loader of the route two levels down is created with
    level 2. *)
Lemma compiled_depth_witness :
  let usersNode :=
    DefaultConfig (Component "Users") (Some "users") VUndefined VUndefined
      (VFun (ConfigLoader "" 2)) VUndefined None in
  let adminNode :=
    DefaultConfig (Component "Admin") (Some "admin") VUndefined VUndefined VUndefined VUndefined
      (Some [usersNode]) in
  let top :=
    DefaultConfig (Component "App") None VUndefined VUndefined VUndefined VUndefined
      (Some [adminNode]) in
  compile true treeWithLoader = (Normal [top], snd (compile true treeWithLoader)) /\
  top ∈ [top] /\
  configOccursAt usersNode top 2 /\
  exists type props childConfigs,
    occursAt (Element type props) treeWithLoader 2 /\
    usersNode = configObject "" type props 2 childConfigs /\
    (is_Redirect type = false -> is_true (loader props) = true ->
     loaderOf usersNode = VFun (ConfigLoader "" 2)).
Proof.
  intros usersNode adminNode top.
  assert (Hrun : compile true treeWithLoader = (Normal [top], snd (compile true treeWithLoader)))
    by (vm_compute; reflexivity).
  assert (Hocc : configOccursAt usersNode top 2).
  { eapply configOccursAt_below; [cbn; apply list_elem_of_here|].
    eapply configOccursAt_below; [cbn; apply list_elem_of_here|]. constructor. }
  split; [exact Hrun|]. split; [apply list_elem_of_here|]. split; [exact Hocc|].
  exact (compiled_node_carries_its_depth
           sampleResolvePaths sampleJoinPaths samplePathParts string
           (fun path => path) String.eqb sampleScore samplePrototype true treeWithLoader None
           [top] _ top usersNode 2%nat Hrun (list_elem_of_here _ _) Hocc).
Defined.

(** *** The built-in action and the failures of the built-in loader *)


(** A world in which the URL parses and the request fails. *)
Definition offlineWorld : Async.env :=
  {| Async.promiseOutcome := fun _ => Normal VUndefined;
     Async.callOutcome := fun _ _ => Normal VUndefined;
     Async.newURL := fun _ => Normal (Async.URL "/users" "?page=2");
     Async.fetch := fun _ _ => Throw (VTypeError "Failed to fetch");
     Async.json := fun _ => Normal VUndefined;
     Async.text := fun _ => Normal (VStr "");
     Async.createData := fun _ => Normal VUndefined |}.

Lemma builtin_loader_failure_witness :
  let context := [("request", VObj [("url", VStr "https://example.com/users?page=2")])] in
  let init :=
    {| Async.init_method := None;
       Async.init_body := None;
       Async.init_headers := [("Accept", "application/json"); ("Range", "route=1")] |} in
  Async.nullish (get_prop "request" context) = false /\
  Async.run offlineWorld (createConfigLoader sampleIsPositive "/api" 1 (VObj context)) =
    ([Async.EvNewURL (VStr "https://example.com/users?page=2");
      Async.EvFetch "/api/users?page=2" init],
     Throw (VTypeError "Failed to fetch")).
Proof.
  intros context init. split; [reflexivity|].
  exact (proj1 (proj2 (builtin_loader_failures sampleIsPositive offlineWorld "/api" 1 context
                         eq_refl))
           (Async.URL "/users" "?page=2") (VTypeError "Failed to fetch") eq_refl eq_refl).
Defined.

(** The argument that the Loading phase passes has no [request]. *)
Lemma builtin_closures_witness :
  let argument :=
    VObj [("url", VStr "https://example.com/users"); ("splat", VObj []);
          ("params", VObj []); ("signal", VStr "signal")] in
  Async.nullish (Async.property "request" argument) = true /\
  (exists message,
     Async.run sampleWorld (createConfigLoader sampleIsPositive "/api" 1 argument) =
     ([], Throw (VTypeError message))) /\
  (exists message,
     Async.run sampleWorld (createConfigAction sampleIsPositive "/api" argument) =
     ([], Throw (VTypeError message))).
Proof.
  intros argument. split; [reflexivity|].
  exact (builtin_closures_need_request sampleIsPositive sampleWorld "/api" 1 argument eq_refl).
Defined.

(** *** The order of the warnings of a level *)

(** A splat and a literal route, each with a hash in its path, and a text
    node between them: the literal route is emitted first, and warned
    about first. *)
Lemma emitted_order_warnings_witness :
  let elements := [page "Splat" "*#top"; Text "hello"; page "Home" "home#main"] in
  let run :=
    createConfigs sampleResolvePaths sampleJoinPaths samplePathParts string
      (fun path => path) String.eqb sampleScore samplePrototype true None "" elements "/" 0%nat
      (State string [] []) in
  true = true /\
  fst run =
    Normal [DefaultConfig (Component "Home") (Some "home#main") VUndefined VUndefined VUndefined VUndefined None;
            DefaultConfig (Component "Splat") (Some "*#top") VUndefined VUndefined VUndefined VUndefined None] /\
  warnings string (snd run) =
    [ConfigWarn (textNodeMessage "hello") None [Text "hello"];
     ConfigWarn (hashMessage "main") None [page "Home" "home#main"];
     ConfigWarn (hashMessage "top") None [page "Splat" "*#top"]] /\
  exists configs s' arranged below,
    run = (Normal configs, s') /\
    arranged ≡ₚ List.filter isElement elements /\
    Forall2 (emittedFor "" 0%nat) arranged configs /\
    warnings string s' =
      [] ++ omap (textWarning None) elements ++
      omap (violationWarning samplePathParts None) arranged ++ below.
Proof.
  intros elements run. split; [reflexivity|].
  split; [vm_compute; reflexivity|]. split; [vm_compute; reflexivity|].
  exact (development_warns_in_emitted_order
           sampleResolvePaths sampleJoinPaths samplePathParts string
           (fun path => path) String.eqb sampleScore samplePrototype true None "" elements "/"
           0%nat (State string [] []) eq_refl).
Defined.
End Config.

(** * The Loading phase ([loaders.js]) *)

Module Loaders.

Import Async.

(** ** Matches, requests and cached loader entries *)

(** One matched segment; [children] is the next segment of the chain. *)
Inductive match_ : Type := Match {
  config : Config.config;
  splat : value;
  params : value;
  children : option match_
}.

(** [match.config.loader] *)
Definition configLoader (c : Config.config) : value := Config.loaderOf c.

Record request : Type := Request {
  url : value;
  signal : value
}.

Record render : Type := Render {
  root : option match_;
  request_of : request
}.

Section CreateLoaders.

(** *** What [loaders.js] imports

    [isEquivalentMatch] of [match.js] and [createResource] of [resource.js]
    are not among the sources. *)
Variable isEquivalentMatch : match_ -> match_ -> bool.
Variable resource : Type.
Variable createResource : prog value -> value -> resource.
Variable stringIsPositive : string -> bool.

(** An entry of [loaders], and of the array that [createLoaders] returns.
    Its promise is kept as the function whose run settles it; its
    controller is known by a number. *)
Record entry : Type := Entry {
  dirty : bool;
  match_of : match_;
  promise : prog value;
  resource_of : resource;
  controller : nat
}.

Record options : Type := Options {
  loaders : option (list entry);
  action : value;
  scheduler : value
}.

(** What a call of [createLoaders] does besides building its result: the
    asynchronous functions it starts, the controllers it allocates, and the
    abort listeners it adds to the request's signal. *)
Record world : Type := World {
  started : list (prog value);
  controllers : nat;
  listeners : list (value * nat)
}.

(** [f(argument)] *)
Definition invoke (f : value) (argument : value) : prog value :=
  match f with
  | VFun g => Config.callFunction stringIsPositive g argument
  | _ => Raise (VTypeError "loader is not a function")
  end.

(** The object literal [{ url, splat, params, signal }]. *)
Definition loaderContext (url : value) (m : match_) (signal : value) : value :=
  VObj [("url", url); ("splat", splat m); ("params", params m); ("signal", signal)].

(** What [createLoaderPromise] does once the action has settled. *)
Definition loadResult (loader url signal : value) (m : match_) : prog value :=
  if is_function loader
  then invoke loader (loaderContext url m signal)
  else Await loader Return.

Definition unwrapResponse (loaderResult : value) : prog value :=
  match loaderResult with
  | VResponse r => CreateData r Return
  | _ => Return loaderResult
  end.

Definition createLoaderPromise (action loader url signal : value) (m : match_) : prog value :=
  Await action (fun _ =>
  bindp (loadResult loader url signal m) unwrapResponse).

(** [loaders?.find(loader => !loader.dirty && isEquivalentMatch(match, loader.match))] *)
Definition findLoader (loaders : option (list entry)) (m : match_) : option entry :=
  match loaders with
  | None => None
  | Some entries =>
      find (fun loader => negb (dirty loader) && isEquivalentMatch m (match_of loader)) entries
  end.

(** The body of [if (loader)] for one segment: the entry pushed onto
    [results]. *)
Definition loaderEntry (r : render) (o : options) (m : match_) (w : world) : entry * world :=
  let loader := configLoader (config m) in
  match findLoader (loaders o) m with
  | Some result => (result, w)
  | None =>
      let url := url (request_of r) in
      let signal := signal (request_of r) in
      let promise := createLoaderPromise (action o) loader url signal m in
      let resource := createResource promise (scheduler o) in
      let controller := controllers w in
      ({| dirty := false;
          match_of := m;
          promise := promise;
          resource_of := resource;
          controller := controller |},
       {| started := started w ++ [promise];
          controllers := S (controllers w);
          listeners := listeners w ++ [(signal, controller)] |})
  end.

(** The [while (matched)] loop. *)
Fixpoint loop (r : render) (o : options) (matched : match_) (results : list entry) (w : world)
  : list entry * world :=
  let (results, w) :=
    if truthy (configLoader (config matched))
    then let (result, w) := loaderEntry r o matched w in (results ++ [result], w)
    else (results, w) in
  match children matched with
  | Some next => loop r o next results w
  | None => (results, w)
  end.

Definition createLoaders (r : render) (o : options) (w : world) : list entry * world :=
  match root r with
  | Some matched => loop r o matched [] w
  | None => ([], w)
  end.

(** ** Facts about the Loading phase *)

(** The segments of the chain, root first, and those that declare a
    loader. *)
Fixpoint chain (m : match_) : list match_ :=
  m :: match children m with
       | Some next => chain next
       | None => []
       end.

Definition segments (r : render) : list match_ :=
  match root r with
  | Some m => chain m
  | None => []
  end.

Definition hasLoader (m : match_) : bool := truthy (configLoader (config m)).

Definition loaderSegments (r : render) : list match_ :=
  List.filter hasLoader (segments r).

(** The entries pushed for a list of segments, one after the other. *)
Fixpoint entriesFor (r : render) (o : options) (ms : list match_) (w : world)
  : list entry * world :=
  match ms with
  | [] => ([], w)
  | m :: rest =>
      let (result, w1) := loaderEntry r o m w in
      let (results, w2) := entriesFor r o rest w1 in
      (result :: results, w2)
  end.

Lemma chain_ind (P : match_ -> Prop)
    (last : forall c sp pa, P (Match c sp pa None))
    (more : forall c sp pa next, P next -> P (Match c sp pa (Some next))) :
  forall m, P m.
Proof.
  fix IH 1. intros [c sp pa [next|]].
  - apply more, IH.
  - apply last.
Qed.

Lemma filter_chain (c : Config.config) (sp pa : value) (next : option match_) :
  List.filter hasLoader (chain (Match c sp pa next)) =
  (if truthy (configLoader c) then [Match c sp pa next] else []) ++
  match next with
  | Some n => List.filter hasLoader (chain n)
  | None => []
  end.
Proof.
  cbn [chain children List.filter]. unfold hasLoader at 1. cbn [config].
  destruct (truthy (configLoader c)), next; reflexivity.
Qed.

Lemma loop_entriesFor (r : render) (o : options) (m : match_) (results : list entry) (w : world) :
  loop r o m results w =
  (results ++ fst (entriesFor r o (List.filter hasLoader (chain m)) w),
   snd (entriesFor r o (List.filter hasLoader (chain m)) w)).
Proof.
  revert results w.
  induction m as [c sp pa|c sp pa next IH] using chain_ind; intros results w;
    rewrite filter_chain; cbn [loop children config];
    destruct (truthy (configLoader c)) eqn:Hl; cbn [app entriesFor].
  - destruct (loaderEntry r o (Match c sp pa None) w) as [result w1]. reflexivity.
  - rewrite app_nil_r. reflexivity.
  - destruct (loaderEntry r o (Match c sp pa (Some next)) w) as [result w1].
    rewrite IH.
    destruct (entriesFor r o (List.filter hasLoader (chain next)) w1) as [es w2].
    cbn [fst snd]. rewrite <- app_assoc. reflexivity.
  - apply IH.
Qed.

Lemma createLoaders_entriesFor (r : render) (o : options) (w : world) :
  createLoaders r o w = entriesFor r o (loaderSegments r) w.
Proof.
  unfold createLoaders, loaderSegments, segments.
  destruct (root r) as [m|]; [|reflexivity].
  rewrite loop_entriesFor. simpl.
  destruct (entriesFor r o (List.filter hasLoader (chain m)) w); reflexivity.
Qed.

(** *** Reuse and creation, segment by segment *)

(** [result] is an entry of [loaders] that is not dirty and whose match is
    equivalent to [m]. *)
Definition reused (o : options) (m : match_) (result : entry) : Prop :=
  (exists entries, loaders o = Some entries /\ result ∈ entries) /\
  dirty result = false /\
  isEquivalentMatch m (match_of result) = true.

(** No entry of [loaders] is both clean and equivalent to [m]. *)
Definition noneReusable (o : options) (m : match_) : Prop :=
  forall entries e, loaders o = Some entries -> e ∈ entries ->
    dirty e = true \/ isEquivalentMatch m (match_of e) = false.

(** [result] is the fresh entry for [m], around the promise [p]. *)
Definition created (r : render) (o : options) (m : match_) (result : entry) (p : prog value) : Prop :=
  dirty result = false /\
  match_of result = m /\
  promise result = p /\
  resource_of result = createResource p (scheduler o) /\
  p = createLoaderPromise (action o) (configLoader (config m))
        (url (request_of r)) (signal (request_of r)) m.

(** Once the action is fulfilled, [p] calls the segment's loader function
    with [{ url, splat, params, signal }]. *)
Definition invokesLoader (r : render) (o : options) (m : match_) (p : prog value) : Prop :=
  forall w x name,
    settle w (action o) = Normal x ->
    configLoader (config m) = VFun (UserFn name) ->
    exists rest,
      fst (run w p) =
      EvAwait (action o) ::
      EvCall name (loaderContext (url (request_of r)) m (signal (request_of r))) :: rest.

(** [p] does nothing before it has awaited the action, and nothing at all
    when the action is rejected. *)
Definition awaitsActionFirst (o : options) (p : prog value) : Prop :=
  forall w, exists rest,
    fst (run w p) = EvAwait (action o) :: rest /\
    (forall e, settle w (action o) = Throw e -> rest = []).

Definition segmentOutcome (r : render) (o : options)
    (m : match_) (result : entry) (new : option (prog value)) : Prop :=
  match new with
  | None => reused o m result
  | Some p =>
      noneReusable o m /\ created r o m result p /\
      invokesLoader r o m p /\ awaitsActionFirst o p
  end.

Lemma findLoader_Some (o : options) (m : match_) (e : entry) :
  findLoader (loaders o) m = Some e -> reused o m e.
Proof.
  unfold findLoader, reused. destruct (loaders o) as [entries|]; [|discriminate].
  intros Hfind. apply find_some in Hfind as [Hin Hok].
  apply andb_true_iff in Hok as [Hclean Heq].
  apply negb_true_iff in Hclean.
  split; [|split]; [|assumption..].
  exists entries. split; [reflexivity|]. apply list_elem_of_In. exact Hin.
Qed.

Lemma findLoader_None (o : options) (m : match_) :
  findLoader (loaders o) m = None -> noneReusable o m.
Proof.
  unfold findLoader, noneReusable. intros Hfind entries e Hl Hin.
  rewrite Hl in Hfind.
  apply list_elem_of_In in Hin.
  pose proof (find_none _ _ Hfind e Hin) as Hno. cbn beta in Hno.
  apply andb_false_iff in Hno as [Hd|He]; [left|right; exact He].
  apply negb_false_iff. exact Hd.
Qed.

Lemma createLoaderPromise_awaits (o : options) (loader url signal : value) (m : match_) :
  awaitsActionFirst o (createLoaderPromise (action o) loader url signal m).
Proof.
  intros w. unfold createLoaderPromise. cbn [run]. rewrite run_step.
  destruct (settle w (action o)) as [x|e].
  - eexists. split; [reflexivity|]. intros e He. discriminate.
  - exists []. split; [reflexivity|]. reflexivity.
Qed.

Lemma createLoaderPromise_invokes (r : render) (o : options) (m : match_) :
  invokesLoader r o m
    (createLoaderPromise (action o) (configLoader (config m))
       (url (request_of r)) (signal (request_of r)) m).
Proof.
  intros w x name Hx Hfn. unfold createLoaderPromise. cbn [run].
  rewrite run_step, Hx. rewrite run_bindp.
  unfold loadResult. rewrite Hfn. cbn [is_function invoke Config.callFunction run fst snd].
  rewrite run_step.
  destruct (callOutcome w name _) as [y|e]; cbn [fst snd].
  - eexists. rewrite <- app_comm_cons. reflexivity.
  - eexists. reflexivity.
Qed.

(** The entries pushed for a list of segments, and the promises started
    for them. *)
Lemma entriesFor_outcome (r : render) (o : options) (ms : list match_) (w : world) :
  exists news : list (option (prog value)),
    started (snd (entriesFor r o ms w)) = started w ++ omap id news /\
    Forall3 (segmentOutcome r o) ms (fst (entriesFor r o ms w)) news.
Proof.
  revert w. induction ms as [|m rest IH]; intros w.
  - exists []. cbn. rewrite app_nil_r. split; [reflexivity|constructor].
  - cbn [entriesFor]. unfold loaderEntry.
    destruct (findLoader (loaders o) m) as [e|] eqn:Hfind.
    + destruct (IH w) as (news & Hstarted & Hall).
      destruct (entriesFor r o rest w) as [results w2]. cbn [fst snd] in *.
      exists (None :: news). split; [exact Hstarted|].
      constructor; [|exact Hall]. apply findLoader_Some. exact Hfind.
    + match goal with |- context [entriesFor r o rest ?w1] =>
        destruct (IH w1) as (news & Hstarted & Hall);
        destruct (entriesFor r o rest w1) as [results w2]
      end.
      cbn [fst snd started] in *.
      eexists (Some _ :: news). split.
      * rewrite Hstarted, <- app_assoc. reflexivity.
      * constructor; [|exact Hall].
        split; [apply findLoader_None; exact Hfind|].
        split; [repeat split|].
        split; [apply createLoaderPromise_invokes|apply createLoaderPromise_awaits].
Qed.

(** C1. In the Loading phase every segment that declares a loader gets one
    result, in chain order.  The result is an entry of [loaders] exactly
    when some entry is not dirty and has an equivalent match: it is then
    such an entry, and no promise is started for the segment, so its
    loader is not invoked again.  Otherwise the result is a fresh, clean
    entry for the segment whose promise is started, and that promise calls
    the segment's loader function once the action is fulfilled. *)
Theorem loaders_reused_or_created (r : render) (o : options) (w : world) :
  exists news : list (option (prog value)),
    started (snd (createLoaders r o w)) = started w ++ omap id news /\
    Forall3 (fun m result new =>
               match new with
               | None => reused o m result
               | Some p => noneReusable o m /\ created r o m result p /\ invokesLoader r o m p
               end)
            (loaderSegments r) (fst (createLoaders r o w)) news.
Proof.
  rewrite createLoaders_entriesFor.
  destruct (entriesFor_outcome r o (loaderSegments r) w) as (news & Hstarted & Hall).
  exists news. split; [exact Hstarted|].
  eapply Forall3_impl; [exact Hall|].
  intros m result [p|]; cbn; [|tauto]. tauto.
Qed.

(** C2. Every promise that one call of [createLoaders] starts awaits the
    navigation's action before anything else: in each of its runs the
    await of the action comes first, so before every loader invocation,
    and when the action is rejected nothing follows it.  Every result that
    is not a reused entry holds such a promise. *)
Theorem action_precedes_loader_invocations (r : render) (o : options) (w : world) :
  exists news : list (prog value),
    started (snd (createLoaders r o w)) = started w ++ news /\
    Forall (awaitsActionFirst o) news /\
    Forall (fun result =>
              (exists m, reused o m result) \/ promise result ∈ news)
           (fst (createLoaders r o w)).
Proof.
  rewrite createLoaders_entriesFor.
  destruct (entriesFor_outcome r o (loaderSegments r) w) as (news & Hstarted & Hall).
  exists (omap id news). split; [exact Hstarted|].
  clear Hstarted. induction Hall as [|m result new ms results news Hone Hall IH].
  - split; constructor.
  - destruct IH as [IHa IHb]. destruct new as [p|]; cbn in *.
    + destruct Hone as (_ & Hcreated & _ & Hawait).
      split; [constructor; assumption|].
      constructor.
      * right. destruct Hcreated as (_ & _ & -> & _). apply list_elem_of_here.
      * eapply Forall_impl; [exact IHb|].
        intros x [Hx|Hx]; [left; exact Hx|right; apply list_elem_of_further; exact Hx].
    + split; [assumption|]. constructor; [|assumption].
      left. exists m. exact Hone.
Qed.

(** *** What a loader's result becomes *)

Lemma static_loader_awaited (w : env) (loader url signal : value) (m : match_) :
  is_function loader = false ->
  snd (run w (loadResult loader url signal m)) = settle w loader.
Proof.
  intros Hstatic. unfold loadResult. rewrite Hstatic. cbn [run].
  rewrite run_step. destruct (settle w loader); reflexivity.
Qed.

(** C10. When the action is fulfilled and the loader settles to
    [loaderResult], the promise of the new entry settles to what
    [createData] makes of [loaderResult] if that is a [Response], and to
    [loaderResult] itself otherwise; for a loader that is not a function,
    [loaderResult] is the awaited value of the loader. *)
Theorem loader_response_unwrapped (w : env) (action loader url signal : value)
    (m : match_) (x loaderResult : value) :
  settle w action = Normal x ->
  snd (run w (loadResult loader url signal m)) = Normal loaderResult ->
  snd (run w (createLoaderPromise action loader url signal m)) =
    match loaderResult with
    | VResponse response => createData w response
    | _ => Normal loaderResult
    end /\
  (is_function loader = false -> settle w loader = Normal loaderResult).
Proof.
  intros Haction Hloader. split.
  - unfold createLoaderPromise. cbn [run]. rewrite run_step, Haction. cbn [snd].
    rewrite run_bindp, Hloader. cbn [snd].
    destruct loaderResult; try reflexivity.
    cbn [unwrapResponse run]. rewrite run_step.
    destruct (createData w r); reflexivity.
  - intros Hstatic. rewrite <- Hloader. symmetry. apply static_loader_awaited. exact Hstatic.
Qed.

(** C9. The closure that [createConfigLoader] returns reads [request] from
    its argument.  Called by [createLoaderPromise] with
    [{ url, splat, params, signal }] it finds no [request], and reading
    [request.url] throws: the run consists of the await of the action
    alone, no request is sent, and the promise is rejected. *)
Theorem builtin_loader_rejects_loader_context (w : env) (action url signal : value)
    (m : match_) (prefix : string) (level : nat) :
  run w (createLoaderPromise action (VFun (ConfigLoader prefix level)) url signal m) =
  ([EvAwait action],
   match settle w action with
   | Normal _ => Throw Config.readUrlError
   | Throw e => Throw e
   end).
Proof.
  unfold createLoaderPromise. cbn [run]. rewrite run_step.
  destruct (settle w action) as [x|e]; reflexivity.
Qed.

(** ** More about the Loading phase *)

(** *** What one call starts and allocates *)

Definition isCached (o : options) (m : match_) : bool :=
  match findLoader (loaders o) m with
  | Some _ => true
  | None => false
  end.

(** The loader-bearing segments for which [loaders] holds nothing to
    reuse. *)
Definition missing (r : render) (o : options) : list match_ :=
  List.filter (fun m => negb (isCached o m)) (loaderSegments r).

Definition promiseFor (r : render) (o : options) (m : match_) : prog value :=
  createLoaderPromise (action o) (configLoader (config m))
    (url (request_of r)) (signal (request_of r)) m.

Lemma entriesFor_effects (r : render) (o : options) (ms : list match_) (w : world) :
  let fresh := List.filter (fun m => negb (isCached o m)) ms in
  let w' := snd (entriesFor r o ms w) in
  started w' = started w ++ map (promiseFor r o) fresh /\
  controllers w' = (controllers w + length fresh)%nat /\
  listeners w' =
    listeners w ++ imap (fun i _ => (signal (request_of r), (controllers w + i)%nat)) fresh.
Proof.
  cbn zeta. revert w. induction ms as [|m rest IH]; intros w.
  - cbn. rewrite !app_nil_r, Nat.add_0_r. repeat split.
  - cbn [entriesFor List.filter]. unfold loaderEntry.
    destruct (findLoader (loaders o) m) as [e|] eqn:Hfind.
    + assert (Hc : isCached o m = true) by (unfold isCached; rewrite Hfind; reflexivity).
      rewrite Hc. cbn [negb].
      specialize (IH w). destruct (entriesFor r o rest w) as [results w2].
      cbn [snd] in *. exact IH.
    + assert (Hc : isCached o m = false) by (unfold isCached; rewrite Hfind; reflexivity).
      rewrite Hc. cbn [negb].
      match goal with |- context [entriesFor r o rest ?w1] =>
        specialize (IH w1); destruct (entriesFor r o rest w1) as [results w2]
      end.
      cbn [snd started controllers listeners] in *.
      destruct IH as (Hs & Hc' & Hl). repeat split.
      * rewrite Hs, <- app_assoc. reflexivity.
      * rewrite Hc'. cbn [length]. lia.
      * rewrite Hl, <- app_assoc. cbn [imap app]. rewrite Nat.add_0_r.
        do 2 f_equal. apply imap_ext. intros i x _. cbn. f_equal. lia.
Qed.

Lemma createLoaders_world (r : render) (o : options) (w : world) :
  started (snd (createLoaders r o w)) = started w ++ map (promiseFor r o) (missing r o) /\
  controllers (snd (createLoaders r o w)) = (controllers w + length (missing r o))%nat /\
  listeners (snd (createLoaders r o w)) =
    listeners w ++
    imap (fun i _ => (signal (request_of r), (controllers w + i)%nat)) (missing r o).
Proof.
  rewrite createLoaders_entriesFor. apply (entriesFor_effects r o (loaderSegments r) w).
Qed.

(** X12. One call of [createLoaders] starts one promise, allocates one
    controller and adds one abort listener to the request's signal for
    each loader-bearing segment that has nothing to reuse, in chain order,
    and none for the others. *)
Theorem createLoaders_effects (r : render) (o : options) (w : world) :
  started (snd (createLoaders r o w)) = started w ++ map (promiseFor r o) (missing r o) /\
  controllers (snd (createLoaders r o w)) = (controllers w + length (missing r o))%nat /\
  listeners (snd (createLoaders r o w)) =
    listeners w ++
    imap (fun i _ => (signal (request_of r), (controllers w + i)%nat)) (missing r o).
Proof. exact (createLoaders_world r o w). Qed.

(** *** The results *)

Lemma entriesFor_results (r : render) (o : options) (ms : list match_) (w : world) :
  Forall2 (fun m result =>
             match findLoader (loaders o) m with
             | Some e => result = e
             | None =>
                 dirty result = false /\ match_of result = m /\
                 promise result = promiseFor r o m /\
                 resource_of result = createResource (promiseFor r o m) (scheduler o)
             end)
          ms (fst (entriesFor r o ms w)).
Proof.
  revert w. induction ms as [|m rest IH]; intros w; [constructor|].
  cbn [entriesFor]. unfold loaderEntry.
  destruct (findLoader (loaders o) m) as [e|] eqn:Hfind.
  - specialize (IH w). destruct (entriesFor r o rest w) as [results w2].
    cbn [fst] in *. constructor; [rewrite Hfind; reflexivity|exact IH].
  - match goal with |- context [entriesFor r o rest ?w1] =>
      specialize (IH w1); destruct (entriesFor r o rest w1) as [results w2]
    end.
    cbn [fst] in *. constructor; [rewrite Hfind; repeat split|exact IH].
Qed.

(** No result of [createLoaders] is dirty, and each one belongs to its
    segment: its match is the segment itself or one that
    [isEquivalentMatch] accepts for it. *)
Lemma createLoaders_clean (r : render) (o : options) (w : world) :
  Forall2 (fun m result =>
             dirty result = false /\
             (match_of result = m \/ isEquivalentMatch m (match_of result) = true))
          (loaderSegments r) (fst (createLoaders r o w)).
Proof.
  rewrite createLoaders_entriesFor.
  eapply Forall2_impl; [apply entriesFor_results|].
  intros m result. cbn beta.
  destruct (findLoader (loaders o) m) as [e|] eqn:Hfind.
  - intros ->. destruct (findLoader_Some o m e Hfind) as (_ & Hclean & Heq).
    split; [exact Hclean|right; exact Heq].
  - intros (Hclean & Hm & _). split; [exact Hclean|left; exact Hm].
Qed.

(** X13. When [loaders] is absent, empty, or holds only dirty entries, every
    segment with a loader gets a fresh entry and its promise is started:
    nothing is reused, also not between two segments of the same chain. *)
Theorem stale_cache_reloads_everything (r : render) (o : options) (w : world) :
  (forall entries e, loaders o = Some entries -> e ∈ entries -> dirty e = true) ->
  Forall2 (fun m result =>
             dirty result = false /\ match_of result = m /\
             promise result = promiseFor r o m)
          (loaderSegments r) (fst (createLoaders r o w)) /\
  started (snd (createLoaders r o w)) =
    started w ++ map (promiseFor r o) (loaderSegments r).
Proof.
  intros Hstale.
  assert (Hnone : forall m, findLoader (loaders o) m = None).
  { intros m. unfold findLoader. destruct (loaders o) as [entries|] eqn:Hl; [|reflexivity].
    destruct (find _ entries) as [e|] eqn:Hfind; [|reflexivity].
    apply find_some in Hfind as [Hin Hok].
    rewrite (Hstale entries e eq_refl (proj2 (list_elem_of_In _ _) Hin)) in Hok.
    discriminate. }
  split.
  - rewrite createLoaders_entriesFor.
    eapply Forall2_impl; [apply entriesFor_results|].
    intros m result. cbn beta. rewrite Hnone. tauto.
  - destruct (createLoaders_world r o w) as (-> & _). do 2 f_equal.
    unfold missing. induction (loaderSegments r) as [|m rest IH]; [reflexivity|].
    cbn [List.filter]. unfold isCached at 1. rewrite Hnone. cbn [negb]. rewrite IH. reflexivity.
Qed.

(** *** The runs of a loader's promise *)

(** X14. A loader that is an author's function: a rejected action rejects the
    promise with the action's error and the loader is not called;
    otherwise the loader is called once, with
    [{ url, splat, params, signal }]; its rejection rejects the promise,
    a [Response] goes through [createData], and any other result is what
    the promise is fulfilled with. *)
Theorem function_loader_run (w : env) (action url signal : value) (name : string) (m : match_) :
  run w (createLoaderPromise action (VFun (UserFn name)) url signal m) =
  match settle w action with
  | Throw e => ([EvAwait action], Throw e)
  | Normal _ =>
      let call := EvCall name (loaderContext url m signal) in
      match callOutcome w name (loaderContext url m signal) with
      | Throw e => ([EvAwait action; call], Throw e)
      | Normal (VResponse response) =>
          ([EvAwait action; call; EvCreateData response], createData w response)
      | Normal loaderResult => ([EvAwait action; call], Normal loaderResult)
      end
  end.
Proof.
  unfold createLoaderPromise. cbn [run]. rewrite run_step.
  destruct (settle w action) as [x|e]; [|reflexivity].
  rewrite run_bindp. cbn [loadResult is_function invoke Config.callFunction run].
  rewrite run_step.
  destruct (callOutcome w name (loaderContext url m signal)) as [loaderResult|e]; [|reflexivity].
  cbn [fst snd run].
  destruct loaderResult; try reflexivity.
  cbn [unwrapResponse run]. rewrite run_step. destruct (createData w r); reflexivity.
Qed.

(** X15. A loader that is not a function is awaited, never called: no function
    is called and no request is sent.  A rejected action or a rejected
    loader promise rejects the promise; a [Response] goes through
    [createData]; any other value is what the promise is fulfilled with. *)
Theorem static_loader_run (w : env) (action loader url signal : value) (m : match_) :
  is_function loader = false ->
  run w (createLoaderPromise action loader url signal m) =
  match settle w action with
  | Throw e => ([EvAwait action], Throw e)
  | Normal _ =>
      match settle w loader with
      | Throw e => ([EvAwait action; EvAwait loader], Throw e)
      | Normal (VResponse response) =>
          ([EvAwait action; EvAwait loader; EvCreateData response], createData w response)
      | Normal loaderResult => ([EvAwait action; EvAwait loader], Normal loaderResult)
      end
  end.
Proof.
  intros Hstatic. unfold createLoaderPromise. cbn [run]. rewrite run_step.
  destruct (settle w action) as [x|e]; [|reflexivity].
  rewrite run_bindp. unfold loadResult. rewrite Hstatic. cbn [run]. rewrite run_step.
  destruct (settle w loader) as [loaderResult|e]; [|reflexivity].
  cbn [fst snd run].
  destruct loaderResult; try reflexivity.
  cbn [unwrapResponse run]. rewrite run_step. destruct (createData w r); reflexivity.
Qed.

(** *** Loading the same render again *)

Lemma findLoader_is_Some (o : options) (m : match_) (entries : list entry) (e : entry) :
  loaders o = Some entries -> e ∈ entries ->
  dirty e = false -> isEquivalentMatch m (match_of e) = true ->
  isCached o m = true.
Proof.
  intros Hl Hin Hclean Heq. unfold isCached, findLoader. rewrite Hl.
  destruct (find _ entries) as [found|] eqn:Hfind; [reflexivity|].
  apply list_elem_of_In in Hin.
  pose proof (find_none _ _ Hfind e Hin) as Hno. cbn beta in Hno.
  rewrite Hclean, Heq in Hno. discriminate.
Qed.

(** X16. When every match is equivalent to itself, the array that
    [createLoaders] returns for a render, handed back as [loaders] for the
    same render, serves every segment: the second call starts no promise,
    creates no controller, adds no listener, and returns entries of that
    array only. *)
Theorem results_serve_the_same_render_again (r : render) (o o' : options) (w w' : world) :
  (forall m, isEquivalentMatch m m = true) ->
  loaders o' = Some (fst (createLoaders r o w)) ->
  snd (createLoaders r o' w') = w' /\
  length (fst (createLoaders r o' w')) = length (fst (createLoaders r o w)) /\
  Forall (fun result => result ∈ fst (createLoaders r o w)) (fst (createLoaders r o' w')).
Proof.
  intros Hrefl Hloaders.
  pose proof (createLoaders_clean r o w) as Hfirst.
  assert (Hcached : forall m, m ∈ loaderSegments r -> isCached o' m = true).
  { intros m Hm. apply list_elem_of_lookup in Hm as [i Hi].
    destruct (Forall2_lookup_l _ _ _ _ _ Hfirst Hi) as (e & He & Hclean & Hmatch).
    apply (findLoader_is_Some o' m _ e Hloaders).
    - apply list_elem_of_lookup. exists i. exact He.
    - exact Hclean.
    - destruct Hmatch as [->|Heq]; [apply Hrefl|exact Heq]. }
  assert (Hmissing : missing r o' = []).
  { unfold missing. apply Forall_forall in Hcached. clear Hfirst.
    induction Hcached as [|m rest Hm Hrest IH]; [reflexivity|].
    cbn [List.filter]. rewrite Hm. cbn [negb]. exact IH. }
  split; [|split].
  - destruct (createLoaders_world r o' w') as (Hs & Hc & Hl).
    rewrite Hmissing in Hs, Hc, Hl. cbn in Hs, Hc, Hl.
    rewrite app_nil_r in Hs, Hl. rewrite Nat.add_0_r in Hc.
    destruct (snd (createLoaders r o' w')) as [st ct li], w' as [st' ct' li'].
    cbn in Hs, Hc, Hl. congruence.
  - rewrite <- (Forall2_length _ _ _ Hfirst).
    symmetry. apply (Forall2_length _ _ _ (createLoaders_clean r o' w')).
  - rewrite (createLoaders_entriesFor r o' w').
    pose proof (entriesFor_results r o' (loaderSegments r) w') as Hsecond.
    apply Forall_forall. intros result Hin. apply list_elem_of_lookup in Hin as [i Hi].
    destruct (Forall2_lookup_r _ _ _ _ _ Hsecond Hi) as (m & Hm & Hresult).
    assert (Hc : isCached o' m = true)
      by (apply Hcached, list_elem_of_lookup; exists i; exact Hm).
    unfold isCached in Hc. destruct (findLoader (loaders o') m) as [e|] eqn:Hfind; [|discriminate].
    subst result. destruct (findLoader_Some o' m e Hfind) as ((entries & Hl & Hin) & _).
    rewrite Hloaders in Hl. injection Hl as <-. exact Hin.
Qed.
End CreateLoaders.

(** ** Worked examples *)

(** Stand-ins for [isEquivalentMatch] and [createResource]: two matches are
    equivalent when their configs have the same path, and a resource is the
    pair of its promise and scheduler. *)
Definition sampleEquivalent (a b : match_) : bool :=
  bool_decide (Config.pathOf (config a) = Config.pathOf (config b)).

Definition sampleResource : Type := prog value * value.

Definition usersConfig (loader : value) : Config.config :=
  Config.DefaultConfig (Config.Component "Users") (Some "users")
    VUndefined VUndefined loader VUndefined None.

Definition usersMatch (loader : value) : match_ :=
  Match (usersConfig loader) (VObj []) (VObj []) None.

Definition sampleRender (loader : value) : render :=
  Render (Some (usersMatch loader)) (Request (VStr "https://example.com/users") (VStr "signal")).

(** An entry left by an earlier navigation. *)
Definition earlier (dirty : bool) : entry sampleResource :=
  Entry sampleResource dirty (usersMatch (VFun (UserFn "load")))
    (Return (VStr "cached")) (Return (VStr "cached"), VUndefined) 7.

Definition load (r : render) (cached : option (list (entry sampleResource))) (w : world)
  : list (entry sampleResource) * world :=
  createLoaders sampleEquivalent sampleResource pair Config.sampleIsPositive
    r (Options sampleResource cached VUndefined VUndefined) w.

(** A clean, equivalent entry is reused and nothing is started; the dirty
    one in front of it is passed over. *)
Example clean_entry_reused :
  load (sampleRender (VFun (UserFn "load"))) (Some [earlier true; earlier false]) (World [] 0 []) =
  ([earlier false], World [] 0 []).
Proof. vm_compute. reflexivity. Qed.

(** With only a dirty entry the loader is run again. *)
Example dirty_entry_reloaded :
  let promise :=
    createLoaderPromise Config.sampleIsPositive VUndefined (VFun (UserFn "load"))
      (VStr "https://example.com/users") (VStr "signal") (usersMatch (VFun (UserFn "load"))) in
  load (sampleRender (VFun (UserFn "load"))) (Some [earlier true]) (World [] 0 []) =
    ([Entry sampleResource false (usersMatch (VFun (UserFn "load"))) promise (promise, VUndefined) 0],
     World [promise] 1 [(VStr "signal", 0%nat)]) /\
  run Config.sampleWorld promise =
    ([EvAwait VUndefined;
      EvCall "load" (VObj [("url", VStr "https://example.com/users"); ("splat", VObj []);
                           ("params", VObj []); ("signal", VStr "signal")]);
      EvCreateData Config.usersResponse],
     Normal (VObj [("users", VNum 2)])).
Proof. split; vm_compute; reflexivity. Qed.

Lemma loader_response_witness :
  let request := VStr "https://example.com/users" in
  let m := usersMatch (VFun (UserFn "load")) in
  settle Config.sampleWorld VUndefined = Normal VUndefined /\
  snd (run Config.sampleWorld
         (loadResult Config.sampleIsPositive (VFun (UserFn "load")) request (VStr "signal") m)) =
    Normal (VResponse Config.usersResponse) /\
  snd (run Config.sampleWorld
         (createLoaderPromise Config.sampleIsPositive VUndefined (VFun (UserFn "load"))
            request (VStr "signal") m)) =
    Normal (VObj [("users", VNum 2)]) /\
  snd (run Config.sampleWorld
         (createLoaderPromise Config.sampleIsPositive VUndefined (VNum 5)
            request (VStr "signal") m)) =
    Normal (VNum 5).
Proof.
  intros request m. split; [reflexivity|]. split; [reflexivity|]. split.
  - exact (proj1 (loader_response_unwrapped Config.sampleIsPositive Config.sampleWorld
             VUndefined (VFun (UserFn "load")) request (VStr "signal") m
             VUndefined (VResponse Config.usersResponse) eq_refl eq_refl)).
  - exact (proj1 (loader_response_unwrapped Config.sampleIsPositive Config.sampleWorld
             VUndefined (VNum 5) request (VStr "signal") m
             VUndefined (VNum 5) eq_refl eq_refl)).
Defined.

(** *** A route compiled with [loader = true]

    The route is compiled, its config is matched, and the Loading phase
    starts the promise of its loader: the closure is called with
    [{ url, splat, params, signal }], throws on [request.url], and no
    request is sent. *)
Example builtin_loader_under_createLoaders :
  let element :=
    Config.Element (Config.Component "Users")
      (Config.Props (Some "users") VUndefined VUndefined VUndefined (VBool true) VUndefined None) in
  let config :=
    Config.DefaultConfig (Config.Component "Users") (Some "users")
      VUndefined VUndefined (VFun (ConfigLoader "" 0)) VUndefined None in
  let matched := Match config (VObj []) (VObj []) None in
  let promise :=
    createLoaderPromise Config.sampleIsPositive VUndefined (VFun (ConfigLoader "" 0))
      (VStr "https://example.com/users") (VStr "signal") matched in
  fst (Config.compile true element) = Normal [config] /\
  started (snd (load (Render (Some matched) (Request (VStr "https://example.com/users") (VStr "signal")))
                     None (World [] 0 []))) = [promise] /\
  run Config.sampleWorld promise = ([EvAwait VUndefined], Throw Config.readUrlError).
Proof. repeat split; vm_compute; reflexivity. Qed.


(** *** A cache that holds only a dirty entry, and a loader that is a value *)

Lemma stale_cache_witness :
  let r := sampleRender (VFun (UserFn "load")) in
  let o := Options sampleResource (Some [earlier true]) VUndefined VUndefined in
  let fresh :=
    createLoaderPromise Config.sampleIsPositive VUndefined (VFun (UserFn "load"))
      (VStr "https://example.com/users") (VStr "signal") (usersMatch (VFun (UserFn "load"))) in
  (forall entries e,
     loaders sampleResource o = Some entries -> e ∈ entries -> dirty sampleResource e = true) /\
  loaderSegments r = [usersMatch (VFun (UserFn "load"))] /\
  promiseFor sampleResource Config.sampleIsPositive r o (usersMatch (VFun (UserFn "load"))) = fresh /\
  Forall2 (fun m result =>
             dirty sampleResource result = false /\ match_of sampleResource result = m /\
             promise sampleResource result = promiseFor sampleResource Config.sampleIsPositive r o m)
          (loaderSegments r) (fst (load r (Some [earlier true]) (World [] 0 []))) /\
  started (snd (load r (Some [earlier true]) (World [] 0 []))) =
    [] ++ map (promiseFor sampleResource Config.sampleIsPositive r o) (loaderSegments r).
Proof.
  intros r o fresh.
  assert (Hstale : forall entries e,
             loaders sampleResource o = Some entries -> e ∈ entries ->
             dirty sampleResource e = true).
  { intros entries e [= <-] Hin. apply list_elem_of_singleton in Hin. subst e. reflexivity. }
  split; [exact Hstale|]. split; [reflexivity|]. split; [reflexivity|].
  exact (stale_cache_reloads_everything sampleEquivalent sampleResource pair
           Config.sampleIsPositive r o (World [] 0 []) Hstale).
Defined.

Lemma static_loader_witness :
  let m := usersMatch (VNum 5) in
  is_function (VNum 5) = false /\
  run Config.sampleWorld
    (createLoaderPromise Config.sampleIsPositive VUndefined (VNum 5)
       (VStr "https://example.com/users") (VStr "signal") m) =
  ([EvAwait VUndefined; EvAwait (VNum 5)], Normal (VNum 5)).
Proof.
  intros m. split; [reflexivity|].
  exact (static_loader_run Config.sampleIsPositive Config.sampleWorld VUndefined (VNum 5)
           (VStr "https://example.com/users") (VStr "signal") m eq_refl).
Defined.

(** The entry created for a render serves the same render again. *)
Lemma results_reused_witness :
  let r := sampleRender (VFun (UserFn "load")) in
  let first := load r None (World [] 0 []) in
  let o := Options sampleResource None VUndefined VUndefined in
  let o' := Options sampleResource (Some (fst first)) VUndefined VUndefined in
  (forall m, sampleEquivalent m m = true) /\
  loaders sampleResource o' = Some (fst first) /\
  length (fst first) = 1%nat /\
  snd (load r (Some (fst first)) (snd first)) = snd first /\
  length (fst (load r (Some (fst first)) (snd first))) = length (fst first) /\
  Forall (fun result => result ∈ fst first) (fst (load r (Some (fst first)) (snd first))).
Proof.
  intros r first o o'.
  assert (Hrefl : forall m, sampleEquivalent m m = true)
    by (intros m; apply bool_decide_eq_true_2; reflexivity).
  split; [exact Hrefl|]. split; [reflexivity|]. split; [reflexivity|].
  exact (results_serve_the_same_render_again sampleEquivalent sampleResource pair
           Config.sampleIsPositive r o o' (World [] 0 []) (snd first) Hrefl eq_refl).
Defined.
End Loaders.
